(** * rsparse: sparse approximation of a low-rank product (src/utils.cpp)

    A shallow embedding of [cpp_make_sparse_approximation] and the
    properties its specification states about it.

    - integers are [Z]; the C++ conversions ([int] to [size_t] to
      [uint32_t], the [(uint32_t * )] cast of the index array) are written
      out as reductions modulo a power of two;
    - an [Rcpp::S4] object is a finite map from slot names to integer
      vectors; an [Rcpp::IntegerVector] is a [list Z];
    - an [arma::mat] is its two dimensions and its element function;
    - exceptions and out-of-range raw pointer accesses are values of
      [error], threaded through the [result] monad;
    - the [#pragma omp parallel for] is a scheduler-driven interleaving of
      the stores of the iterations; without OpenMP the loop runs in order. *)

From Stdlib Require Import ZArith Lia.
From stdpp Require Import base list strings pretty gmap.

Local Open Scope Z_scope.

(** ** Errors *)

Inductive error : Type :=
| RcppStop (msg : string)          (* Rcpp::stop(msg) *)
| NoSuchSlot (name : string)       (* S4::slot on a slot the object lacks *)
| ArmaIndexOutOfBounds             (* Mat::col(): index out of bounds; an
                                      out-of-range read where Armadillo's
                                      checks are compiled out *)
| ArmaIncompatibleDimensions       (* matrix multiplication: incompatible dimensions *)
| UndefinedBehaviour.              (* raw pointer access outside its vector *)

Inductive result (A : Type) : Type :=
| Ok (a : A)
| Err (e : error).
Arguments Ok {A} a.
Arguments Err {A} e.

#[global] Instance result_ret : MRet result := fun _ a => Ok a.
#[global] Instance result_bind : MBind result := fun _ _ f m =>
  match m with
  | Ok a => f a
  | Err e => Err e
  end.

(** ** Constants of rsparse.h *)

(** Modelled from the spec: the header rsparse.h is not part of the
    sources at hand; the spec fixes the two format discriminators,
    "CSC = 1, CSR = 2". *)
Definition CSC : Z := 1.
Definition CSR : Z := 2.

(** ** Machine integers *)

Definition to_uint32 (z : Z) : Z := z mod 2 ^ 32.
Definition to_size_t (z : Z) : Z := z mod 2 ^ 64.

(** [v[k]] through a raw [int*] (or the unchecked [operator[]] of an
    IntegerVector): defined inside the vector only. *)
Definition int_at (v : list Z) (k : Z) : result Z :=
  if k <? 0 then Err UndefinedBehaviour
  else match v !! Z.to_nat k with
       | Some z => Ok z
       | None => Err UndefinedBehaviour
       end.

(** [((uint32_t * ) v)[k]]: the same four bytes read as unsigned. *)
Definition uint32_at (v : list Z) (k : Z) : result Z :=
  z ← int_at v k; Ok (to_uint32 z).

(** ** S4 objects *)

Definition slot (obj : gmap string (list Z)) (name : string) : result (list Z) :=
  match obj !! name with
  | Some v => Ok v
  | None => Err (NoSuchSlot name)
  end.

(** ** Loops *)

(** [for (k = lo; <count more rounds>; k++) s = body k s], stopping at the
    first error. *)
Fixpoint for_loop {S : Type} (body : Z → S → result S)
    (lo : Z) (count : nat) (s : S) : result S :=
  match count with
  | O => Ok s
  | Datatypes.S n => s' ← body lo s; for_loop body (lo + 1) n s'
  end.

Section approximation.

(** The scalar type [double] and its arithmetic are kept abstract: no
    property below depends on any law of floating point arithmetic. *)
Context {R : Type} (Rzero : R) (Rplus Rmult : R → R → R).

(** ** Dense matrices *)

Record mat : Type := Mat {
  n_rows : Z;
  n_cols : Z;
  at_ : Z → Z → R             (* at_ r c: row r, column c *)
}.

Definition column (M : mat) (c : Z) : list R :=
  (λ r, at_ M r c) <$> seqZ 0 (n_rows M).

(** [M.col(c)], with Armadillo's bounds check; [c] is unsigned. *)
Definition col (M : mat) (c : Z) : result (list R) :=
  if n_cols M <=? c then Err ArmaIndexOutOfBounds else Ok (column M c).

(** Modelled from the spec: Armadillo's product of a 1 x k row by a k x 1
    column is not part of the sources at hand; the spec calls it the
    "inner product of two length-k vectors" and leaves the accumulation
    order open. The terms are added here in index order, starting from
    zero. *)
Definition inner_product (a b : list R) : R :=
  foldl Rplus Rzero (zip_with Rmult a b).

(** [as_scalar(xc * c)] for a row [xc] and a column [c]. *)
Definition as_scalar_mul (xc c : list R) : result R :=
  if decide (length xc = length c) then Ok (inner_product xc c)
  else Err ArmaIncompatibleDimensions.

(** ** The loop nest, lines 36-53

    The loop nest is written once, over the way a store to
    [ptr_approximated_values] takes effect on a state [S]. *)

Section loop_nest.
Context {S : Type} (store : Z → R → S → result S).
Context (X Y : mat) (sparse_matrix_type : Z) (p j : list Z).

(** Lines 46-50. *)
Definition inner_body (xc : list R) (pp : Z) (s : S) : result S :=
  ind ← uint32_at j pp;
  c ← col (if sparse_matrix_type =? CSR then Y else X) ind;
  v ← as_scalar_mul xc c;
  store pp v s.

(** Lines 37-51. [i + 1] is computed in [uint32_t]. *)
Definition outer_body (i : Z) (s : S) : result S :=
  p1 ← int_at p i;
  p2 ← int_at p (to_uint32 (i + 1));
  xc ← col (if sparse_matrix_type =? CSR then X else Y) i;
  for_loop (inner_body xc) p1 (Z.to_nat (p2 - p1)) s.
End loop_nest.

(** [ptr_approximated_values[pp] = v] on the output array itself. *)
Definition array_store (pp : Z) (v : R) (out : list R) : result (list R) :=
  if bool_decide (0 ≤ pp < Z.of_nat (length out))
  then Ok (<[Z.to_nat pp := v]> out)
  else Err UndefinedBehaviour.

(** The same store recorded as an event, for an output array of [nnz]
    slots. *)
Definition log_store (nnz : nat) (pp : Z) (v : R) (log : list (nat * R))
    : result (list (nat * R)) :=
  if bool_decide (0 ≤ pp < Z.of_nat nnz)
  then Ok (log ++ [(Z.to_nat pp, v)])
  else Err UndefinedBehaviour.

Definition apply_writes (ws : list (nat * R)) (out : list R) : list R :=
  foldl (λ o w, <[w.1 := w.2]> o) out ws.

(** ** OpenMP: [parallel for num_threads(n_threads) schedule(dynamic, GRAIN_SIZE)]

    The inputs are read-only, so the stores an iteration makes are
    determined by its index alone; what the schedule decides is which
    thread takes which chunk and how the stores of the threads interleave.
    A thread with nothing left takes the next chunk of [GRAIN_SIZE]
    iterations from the shared counter; otherwise it performs its next
    store. *)

Record omp_state : Type := OmpState {
  next_iteration : nat;                   (* first iteration not handed out *)
  pending : list (list (nat * R));        (* per thread: stores still to make *)
  shared : list R                         (* approximated_values *)
}.

Section omp.
Context (X Y : mat) (sparse_matrix_type : Z) (p j : list Z).
Context (N : nat) (GRAIN_SIZE : nat).

(** The stores of iterations [lo], ..., [lo + count - 1], in order. *)
Definition chunk_writes (lo : nat) (count : nat) : result (list (nat * R)) :=
  for_loop (outer_body (log_store (length j)) X Y sparse_matrix_type p j)
           (Z.of_nat lo) count [].

(** One step of thread [t]. *)
Definition omp_step (t : nat) (st : omp_state) : result omp_state :=
  match pending st !! t with
  | None => Ok st
  | Some (w :: ws) =>
      Ok (OmpState (next_iteration st) (<[t := ws]> (pending st))
                   (<[w.1 := w.2]> (shared st)))
  | Some [] =>
      let lo := next_iteration st in
      let count := (GRAIN_SIZE `min` (N - lo))%nat in
      ws ← chunk_writes lo count;
      Ok (OmpState (lo + count)%nat (<[t := ws]> (pending st)) (shared st))
  end.

Fixpoint omp_run (schedule : list nat) (st : omp_state) : result omp_state :=
  match schedule with
  | [] => Ok st
  | t :: schedule' => st' ← omp_step t st; omp_run schedule' st'
  end.

(** The join at the end of the parallel region: every thread finishes
    what it holds and the iterations never handed out are run. *)
Definition omp_join (st : omp_state) : result (list R) :=
  ws ← chunk_writes (next_iteration st) (N - next_iteration st);
  Ok (apply_writes (concat (pending st) ++ ws) (shared st)).

Definition omp_parallel_for (n_threads : Z) (schedule : list nat)
    (out : list R) : result (list R) :=
  st ← omp_run schedule (OmpState 0 (replicate (Z.to_nat n_threads) []) out);
  omp_join st.

(** What every state of a parallel region started on [init] satisfies:
    the stores of the iterations handed out so far are those already made
    together with those the threads still hold. *)
Definition omp_inv (init : list R) (st : omp_state) : Prop :=
  (next_iteration st ≤ N)%nat ∧
  ∃ handed_out made : list (nat * R),
    chunk_writes 0 (next_iteration st) = Ok handed_out ∧
    handed_out ≡ₚ made ++ concat (pending st) ∧
    shared st = apply_writes made init.
End omp.

(** How the translation unit was built and, with OpenMP, what the
    scheduler decided during the call. *)
Inductive execution : Type :=
| NoOpenMP
| OpenMP (GRAIN_SIZE : nat) (schedule : list nat).

(** ** cpp_make_sparse_approximation, lines 4-55 *)

Definition unknown_type_message : string :=
  "make_sparse_approximation_csr doesn't know sparse matrix type. Should be CSC=1 or CSR=2".

Definition cpp_make_sparse_approximation (exec : execution)
    (mat_template : gmap string (list Z)) (X Y : mat)
    (sparse_matrix_type : Z) (n_threads : Z) : result (list R) :=
  rp ← slot mat_template "p";
  rj ← (if sparse_matrix_type =? CSR then slot mat_template "j"
        else if sparse_matrix_type =? CSC then slot mat_template "i"
        else Err (RcppStop unknown_type_message));
  dim ← slot mat_template "Dim";
  dim0 ← int_at dim 0;
  let nr := to_size_t dim0 in
  dim1 ← int_at dim 1;
  let nc := to_size_t dim1 in
  let N := if sparse_matrix_type =? CSR then to_uint32 nr else to_uint32 nc in
  let approximated_values := replicate (length rj) Rzero in
  match exec with
  | NoOpenMP =>
      for_loop (outer_body array_store X Y sparse_matrix_type rp rj)
               0 (Z.to_nat N) approximated_values
  | OpenMP GRAIN_SIZE schedule =>
      omp_parallel_for X Y sparse_matrix_type rp rj (Z.to_nat N) GRAIN_SIZE
                       n_threads schedule approximated_values
  end.

(** ** The data model of the specification *)

(** The factor matrix whose columns follow the outer index, and the one
    whose columns follow the inner indices. *)
Definition outer_factor (sparse_matrix_type : Z) (X Y : mat) : mat :=
  if sparse_matrix_type =? CSR then X else Y.
Definition inner_factor (sparse_matrix_type : Z) (X Y : mat) : mat :=
  if sparse_matrix_type =? CSR then Y else X.

(** [outer_ptr] of a pattern with [outer_dim] outer slots and [nnz]
    nonzeros: [outer_dim + 1] offsets into [inner_index], non-decreasing,
    the last one being the number of nonzeros. *)
Record ptr_ok (outer_dim nnz : nat) (outer_ptr : list Z) : Prop := PtrOk {
  ptr_length : length outer_ptr = Datatypes.S outer_dim;
  ptr_first : ∀ a, outer_ptr !! 0%nat = Some a → 0 ≤ a;
  ptr_monotone : ∀ (k : nat) a b,
    outer_ptr !! k = Some a → outer_ptr !! Datatypes.S k = Some b → a ≤ b;
  ptr_last : outer_ptr !! outer_dim = Some (Z.of_nat nnz)
}.

(** Inputs on which every access of the loop nest is in bounds: a pattern
    object of the given format with int dimensions and a well-formed
    pointer array, an outer factor with a column per outer slot, every
    stored index, read as unsigned, a column of the inner factor, and
    factors of equal height. *)
Record in_bounds (sparse_matrix_type : Z) (mat_template : gmap string (list Z))
    (X Y : mat) (rp rj : list Z) (nr nc : Z) : Prop := InBounds {
  ib_format : sparse_matrix_type = CSR ∨ sparse_matrix_type = CSC;
  ib_p : mat_template !! "p" = Some rp;
  ib_j : mat_template !! (if sparse_matrix_type =? CSR then "j" else "i") = Some rj;
  ib_Dim : mat_template !! "Dim" = Some [nr; nc];
  ib_nr : 0 ≤ nr < 2 ^ 31;
  ib_nc : 0 ≤ nc < 2 ^ 31;
  ib_ptr : ptr_ok (Z.to_nat (if sparse_matrix_type =? CSR then nr else nc))
                  (length rj) rp;
  ib_outer : (if sparse_matrix_type =? CSR then nr else nc)
             ≤ n_cols (outer_factor sparse_matrix_type X Y);
  ib_inner : Forall (λ c, to_uint32 c < n_cols (inner_factor sparse_matrix_type X Y)) rj;
  ib_rows : n_rows X = n_rows Y
}.

(** A well-formed pattern with factor matrices of matching dimensions, as
    the specification's data model has them: inner indices within the
    inner dimension, [X] with a column per row of the pattern and [Y] with
    a column per column of it. *)
Record well_formed (sparse_matrix_type : Z) (mat_template : gmap string (list Z))
    (X Y : mat) (rp rj : list Z) (nr nc : Z) : Prop := WellFormed {
  wf_format : sparse_matrix_type = CSR ∨ sparse_matrix_type = CSC;
  wf_p : mat_template !! "p" = Some rp;
  wf_j : mat_template !! (if sparse_matrix_type =? CSR then "j" else "i") = Some rj;
  wf_Dim : mat_template !! "Dim" = Some [nr; nc];
  wf_nr : 0 ≤ nr < 2 ^ 31;
  wf_nc : 0 ≤ nc < 2 ^ 31;
  wf_ptr : ptr_ok (Z.to_nat (if sparse_matrix_type =? CSR then nr else nc))
                  (length rj) rp;
  wf_inner : Forall (λ c, 0 ≤ c < (if sparse_matrix_type =? CSR then nc else nr)) rj;
  wf_X : n_cols X = nr;
  wf_Y : n_cols Y = nc;
  wf_rows : n_rows X = n_rows Y
}.

(** The stores of one run of nonzeros, [n] slots from [p1] on, for the
    extracted factor vector [xc]. *)
Definition run_writes (G : mat) (rj : list Z) (xc : list R) (p1 n : nat)
    : list (nat * R) :=
  (λ pp, (pp, inner_product xc (column G (to_uint32 (rj !!! pp))))) <$> seq p1 n.

(** The stores of the first [k] outer slots, in loop order. *)
Definition expected_writes (sparse_matrix_type : Z) (X Y : mat)
    (rp rj : list Z) (k : nat) : list (nat * R) :=
  concat ((λ i : nat,
             run_writes (inner_factor sparse_matrix_type X Y) rj
               (column (outer_factor sparse_matrix_type X Y) (Z.of_nat i))
               (Z.to_nat (rp !!! i))
               (Z.to_nat (rp !!! Datatypes.S i - rp !!! i))) <$> seq 0 k).

End approximation.

(** ** Transposed patterns *)

Definition set_slot (name : string) (v : option (list Z))
    (obj : gmap string (list Z)) : gmap string (list Z) :=
  match v with
  | Some x => <[name := x]> obj
  | None => obj
  end.

(** The column-compressed object of the transposed matrix: the pointer
    array is kept, the column indices become row indices and the two
    dimensions change places. *)
Definition transpose_pattern (P : gmap string (list Z)) : gmap string (list Z) :=
  set_slot "p" (P !! "p")
    (set_slot "i" (P !! "j")
       (set_slot "Dim" (reverse <$> P !! "Dim") ∅)).

(** The (outer, inner) index pairs of a compressed pattern with [N] outer
    slots, in storage order. *)
Definition runs (rp rj : list Z) (N : nat) : list (Z * Z) :=
  concat ((λ i : nat,
             (λ pp : nat, (Z.of_nat i, rj !!! pp))
               <$> seq (Z.to_nat (rp !!! i))
                       (Z.to_nat (rp !!! Datatypes.S i - rp !!! i)))
          <$> seq 0 N).

(** The (row, column) entries a pattern object of the given format
    denotes. *)
Definition entries (sparse_matrix_type : Z) (P : gmap string (list Z))
    : list (Z * Z) :=
  match P !! "p", P !! (if sparse_matrix_type =? CSR then "j" else "i"),
        P !! "Dim" with
  | Some rp, Some rj, Some [nr; nc] =>
      if sparse_matrix_type =? CSR then runs rp rj (Z.to_nat nr)
      else prod_swap <$> runs rp rj (Z.to_nat nc)
  | _, _, _ => []
  end.

(** ** Error messages *)

Fixpoint contains (needle hay : string) : bool :=
  String.prefix needle hay ||
  match hay with
  | EmptyString => false
  | String _ rest => contains needle rest
  end.

(** A message names an integer when its decimal numeral occurs in it. *)
Definition names_value (msg : string) (v : Z) : bool := contains (pretty v) msg.

(** ** A checkable form of [ptr_ok] *)

Definition ptr_check (outer_dim nnz : nat) (outer_ptr : list Z) : Prop :=
  length outer_ptr = Datatypes.S outer_dim ∧
  0 ≤ outer_ptr !!! 0%nat ∧
  Forall (λ k : nat, outer_ptr !!! k ≤ outer_ptr !!! Datatypes.S k) (seq 0 outer_dim) ∧
  outer_ptr !! outer_dim = Some (Z.of_nat nnz).

(** ** Concrete inputs, over the integers *)

Definition mat_of_columns (k : Z) (cols : list (list Z)) : @mat Z :=
  Mat k (Z.of_nat (length cols))
      (λ r c, default 0 (cols !! Z.to_nat c ≫= λ cl, cl !! Z.to_nat r)).

Definition csr_object (p j Dim : list Z) : gmap string (list Z) :=
  <["p" := p]> (<["j" := j]> (<["Dim" := Dim]> ∅)).
Definition csc_object (p i Dim : list Z) : gmap string (list Z) :=
  <["p" := p]> (<["i" := i]> (<["Dim" := Dim]> ∅)).

(** The 2 x 2 diagonal pattern with 1 x 2 factors. *)
Definition diag_csr : gmap string (list Z) := csr_object [0; 1; 2] [0; 1] [2; 2].
Definition diag_csc : gmap string (list Z) := csc_object [0; 1; 2] [0; 1] [2; 2].
Definition X_12 : @mat Z := mat_of_columns 1 [[1]; [2]].
Definition Y_34 : @mat Z := mat_of_columns 1 [[3]; [4]].

(** A ragged 3 x 3 pattern: three nonzeros in row 0, none in row 1, one in
    row 2; factors of height 2. *)
Definition ragged_csr : gmap string (list Z) :=
  csr_object [0; 3; 3; 4] [0; 1; 2; 1] [3; 3].
Definition X_ragged : @mat Z := mat_of_columns 2 [[1; 1]; [2; 0]; [3; 5]].
Definition Y_ragged : @mat Z := mat_of_columns 2 [[1; 0]; [0; 1]; [1; 1]].

(** A 2 x 2 pattern without nonzeros. *)
Definition empty_csr : gmap string (list Z) := csr_object [0; 0; 0] [] [2; 2].

(** One row whose only stored index is -1, and an inner factor with 2^32
    columns. *)
Definition minus_one_csr : gmap string (list Z) := csr_object [0; 1] [-1] [1; 1].
Definition X_one : @mat Z := mat_of_columns 2 [[1; 1]].
Definition Y_wide : @mat Z := Mat 2 (2 ^ 32) (λ r c, r + c).

(** Runs that overlap: slot 1 belongs to the runs of rows 0 and 2. The
    pointer array is not monotone, so this is no pattern of the data
    model. *)
Definition overlapping_csr : gmap string (list Z) :=
  csr_object [0; 2; 1; 2] [0; 0] [3; 3].

(** Three rows, the last two without nonzeros, and an outer factor with
    one column only. *)
Definition trailing_csr : gmap string (list Z) := csr_object [0; 1; 1; 1] [0] [3; 3].

(** ** Sparse matrix objects and their mapped views, lines 57-75 *)

Section views.
Context {R : Type}.

(** A sparse matrix object with its slots typed as the Matrix classes
    declare them: integer vectors ([p], [i], [j], [Dim]) and numeric
    vectors ([x]). *)
Record S4 : Type := MkS4 {
  integer_slots : gmap string (list Z);
  numeric_slots : gmap string (list R)
}.

Definition numeric_slot (obj : S4) (name : string) : result (list R) :=
  match numeric_slots obj !! name with
  | Some v => Ok v
  | None => Err (NoSuchSlot name)
  end.

(** Modelled from the spec: the classes dMappedCSR and dMappedCSC are
    declared in rsparse.h, which is not part of the sources at hand; the
    spec gives both views the shape "{nrows, ncols, nnz, inner_index,
    outer_ptr, values}". The fields are listed in the order of the
    constructor arguments of lines 64 and 74. *)
Record mapped : Type := Mapped {
  view_nrows : Z;
  view_ncols : Z;
  view_nnz : Z;
  view_inner_index : list Z;
  view_outer_ptr : list Z;
  view_values : list R
}.

(** Lines 57-65. Both index arrays are handed over through
    [(uint32_t * )]. *)
Definition extract_mapped_csr (input : S4) : result mapped :=
  dim ← slot (integer_slots input) "Dim";
  value ← numeric_slot input "x";
  dim0 ← int_at dim 0;
  let nrows := to_uint32 dim0 in
  dim1 ← int_at dim 1;
  let ncols := to_uint32 dim1 in
  rj ← slot (integer_slots input) "j";
  rp ← slot (integer_slots input) "p";
  Ok (Mapped nrows ncols (Z.of_nat (length value))
             (to_uint32 <$> rj) (to_uint32 <$> rp) value).

(** Lines 67-75. *)
Definition extract_mapped_csc (input : S4) : result mapped :=
  dim ← slot (integer_slots input) "Dim";
  values ← numeric_slot input "x";
  dim0 ← int_at dim 0;
  let nrows := to_uint32 dim0 in
  dim1 ← int_at dim 1;
  let ncols := to_uint32 dim1 in
  row_indices ← slot (integer_slots input) "i";
  col_ptrs ← slot (integer_slots input) "p";
  Ok (Mapped nrows ncols (Z.of_nat (length values))
             (to_uint32 <$> row_indices) (to_uint32 <$> col_ptrs) values).

(** The column-compressed object of the transposed matrix, values
    included, and the view with its two dimensions exchanged. *)
Definition transpose_object (obj : S4) : S4 :=
  MkS4 (transpose_pattern (integer_slots obj)) (numeric_slots obj).

Definition transpose_view (v : mapped) : mapped :=
  Mapped (view_ncols v) (view_nrows v) (view_nnz v)
         (view_inner_index v) (view_outer_ptr v) (view_values v).

End views.

(** ** omp_thread_count, lines 81-88 *)

(** [a + b] on [int]: overflow is undefined. *)
Definition int_add (a b : Z) : result Z :=
  if bool_decide (- 2 ^ 31 ≤ a + b < 2 ^ 31) then Ok (a + b)
  else Err UndefinedBehaviour.

(** The parallel region of line 84: absent without OpenMP; with it, a team
    of [threads] threads, and the order in which the runtime combines
    their private copies at the end of the region. *)
Inductive parallel_region : Type :=
| NoRegion
| Team (threads : nat) (order : list nat).

(** [reduction(+:n)]: the private copies are added to the original [n]
    one after the other. *)
Fixpoint omp_reduction_plus (n : Z) (privates : list Z) (order : list nat)
    : result Z :=
  match order with
  | [] => Ok n
  | t :: order' =>
      n' ← int_add n (privates !!! t); omp_reduction_plus n' privates order'
  end.

(** Every thread runs [n += 1] on its private copy, which starts at 0. *)
Definition omp_thread_count (region : parallel_region) : result Z :=
  let n := 0 in
  match region with
  | NoRegion => int_add n 1
  | Team threads order =>
      privates ← mapM (λ n_private, int_add n_private 1) (replicate threads 0);
      omp_reduction_plus n privates order
  end.

(** ** Agreement of factor matrices on a set of columns *)

Definition agree_on {R : Type} (used : Z → Prop) (M M' : @mat R) : Prop :=
  n_rows M = n_rows M' ∧ n_cols M = n_cols M' ∧
  ∀ r c, used c → 0 ≤ r < n_rows M → at_ M r c = at_ M' r c.

(** ** Accesses of one iteration of the outer loop *)

(** Iteration [i] stays in bounds: both pointer reads, the column of the
    outer factor, and for every slot of its run the index read, the column
    of the inner factor and the heights of the two vectors multiplied. *)
Definition iteration_in_bounds {R : Type} (sparse_matrix_type : Z)
    (X Y : @mat R) (rp rj : list Z) (i : Z) : Prop :=
  ∃ a b,
    rp !! Z.to_nat i = Some a ∧ rp !! Z.to_nat (i + 1) = Some b ∧
    i < n_cols (outer_factor sparse_matrix_type X Y) ∧
    ∀ pp, a ≤ pp < b →
      0 ≤ pp ∧
      ∃ c, rj !! Z.to_nat pp = Some c ∧
           to_uint32 c < n_cols (inner_factor sparse_matrix_type X Y) ∧
           Z.to_nat (n_rows X) = Z.to_nat (n_rows Y).

(** ** More concrete inputs *)

Definition diag_csr_object : @S4 Z :=
  MkS4 diag_csr (<["x" := [10; 20]]> ∅).
Definition diag_csc_object : @S4 Z :=
  MkS4 diag_csc (<["x" := [10; 20]]> ∅).
Definition ragged_csr_object : @S4 Z :=
  MkS4 ragged_csr (<["x" := [7; 8; 9; 6]]> ∅).
Definition minus_one_csr_object : @S4 Z :=
  MkS4 minus_one_csr (<["x" := [5]]> ∅).


(** The factors of the ragged scenario with other content outside the
    rows and columns the matrices have. *)
Definition X_ragged' : @mat Z :=
  Mat 2 3 (λ r c, if bool_decide (0 ≤ r < 2 ∧ 0 ≤ c < 3) then at_ X_ragged r c else 99).
Definition Y_ragged' : @mat Z :=
  Mat 2 3 (λ r c, if bool_decide (0 ≤ r < 2 ∧ 0 ≤ c < 3) then at_ Y_ragged r c else 77).

(** The ragged pattern with the first run starting at slot 1: slot 0
    belongs to no run. *)
Definition shifted_csr : gmap string (list Z) :=
  csr_object [1; 3; 3; 4] [0; 1; 2; 1] [3; 3].

(** * Properties *)

(** ** The result monad *)

Lemma bind_Ok_inv {A B : Type} (m : result A) (f : A → result B) (b : B) :
  m ≫= f = Ok b → ∃ a, m = Ok a ∧ f a = Ok b.
Proof. destruct m as [a|e]; simpl; [eauto | discriminate]. Qed.

Lemma bind_Ok_r {A : Type} (m : result A) : m ≫= Ok = m.
Proof. by destruct m. Qed.

Lemma bind_assoc {A B C : Type} (m : result A) (f : A → result B) (g : B → result C) :
  (m ≫= f) ≫= g = m ≫= (λ a, f a ≫= g).
Proof. by destruct m. Qed.

Lemma bind_ext {A B : Type} (m : result A) (f g : A → result B) :
  (∀ a, f a = g a) → m ≫= f = m ≫= g.
Proof. intros Hfg. destruct m; simpl; auto. Qed.

(** ** Counted loops *)

Section for_loop_facts.
Context {S : Type}.
Implicit Types (body : Z → S → result S) (lo : Z) (n : nat) (s : S).

Lemma for_loop_ext body body' lo n s :
  (∀ k s', body k s' = body' k s') →
  for_loop body lo n s = for_loop body' lo n s.
Proof.
  intros Hbody. revert lo s.
  induction n as [|n IH]; intros lo s; simpl; [done|].
  rewrite Hbody. apply bind_ext. intros s'. apply IH.
Qed.

Lemma for_loop_add body lo n1 n2 s :
  for_loop body lo (n1 + n2) s =
  for_loop body lo n1 s ≫= for_loop body (lo + Z.of_nat n1) n2.
Proof.
  revert lo s. induction n1 as [|n1 IH]; intros lo s.
  - simpl. by rewrite Z.add_0_r.
  - cbn [for_loop Nat.add]. rewrite bind_assoc. apply bind_ext. intros s'.
    rewrite IH. f_equal. f_equal. lia.
Qed.

(** A loop over a state seen through [f] is the loop over the state
    itself, when each round is. *)
Lemma for_loop_through {T : Type} (f : T → S) body
    (body_T : Z → T → result T) :
  (∀ k t, body k (f t) = body_T k t ≫= λ t', Ok (f t')) →
  ∀ n lo t, for_loop body lo n (f t) = for_loop body_T lo n t ≫= λ t', Ok (f t').
Proof.
  intros Hbody. induction n as [|n IH]; intros lo t; simpl; [done|].
  rewrite Hbody, !bind_assoc. apply bind_ext. intros t'. simpl. apply IH.
Qed.
End for_loop_facts.

(** A loop whose rounds only append to a log appends what it logs from the
    empty log. *)
Lemma for_loop_appends {W : Type} (body : Z → list W → result (list W)) :
  (∀ k l, body k l = body k [] ≫= λ ws, Ok (l ++ ws)) →
  ∀ n lo l, for_loop body lo n l = for_loop body lo n [] ≫= λ ws, Ok (l ++ ws).
Proof.
  intros Hbody. induction n as [|n IH]; intros lo l; simpl.
  - by rewrite app_nil_r.
  - rewrite Hbody, !bind_assoc. apply bind_ext. intros ws. simpl.
    rewrite (IH _ (l ++ ws)), (IH _ ws), !bind_assoc.
    apply bind_ext. intros ws'. simpl. by rewrite app_assoc.
Qed.

Section facts.
Context {R : Type} (Rzero : R) (Rplus Rmult : R → R → R).
Implicit Types (X Y : @mat R) (out : list R) (ws : list (nat * R)).

(** ** Stores applied to the output array *)

Lemma apply_writes_app ws ws' out :
  apply_writes (ws ++ ws') out = apply_writes ws' (apply_writes ws out).
Proof. unfold apply_writes. by rewrite foldl_app. Qed.

Lemma length_apply_writes ws out : length (apply_writes ws out) = length out.
Proof.
  revert out. induction ws as [|w ws IH]; intros out; [done|].
  cbn. change (length (apply_writes ws (<[w.1:=w.2]> out)) = length out).
  by rewrite IH, length_insert.
Qed.

Lemma apply_writes_lookup_other ws out (k : nat) :
  k ∉ ws.*1 → apply_writes ws out !! k = out !! k.
Proof.
  revert out. induction ws as [|w ws IH]; intros out Hk; [done|].
  rewrite fmap_cons, not_elem_of_cons in Hk. destruct Hk as [Hne Hk].
  change (apply_writes ws (<[w.1:=w.2]> out) !! k = out !! k).
  rewrite IH by done. by rewrite list_lookup_insert_ne.
Qed.

Lemma apply_writes_lookup ws out (k : nat) (v : R) :
  NoDup ws.*1 → (k, v) ∈ ws → (k < length out)%nat →
  apply_writes ws out !! k = Some v.
Proof.
  revert out. induction ws as [|w ws IH]; intros out Hnd Hin Hk.
  - by apply elem_of_nil in Hin.
  - rewrite fmap_cons in Hnd. apply NoDup_cons in Hnd as [Hw Hnd].
    change (apply_writes ws (<[w.1:=w.2]> out) !! k = Some v).
    apply elem_of_cons in Hin as [<-|Hin].
    + rewrite apply_writes_lookup_other by done.
      by apply list_lookup_insert_eq.
    + apply IH; [done..|]. by rewrite length_insert.
Qed.

(** Stores to distinct slots commute: their order does not matter. *)
Lemma apply_writes_Permutation ws ws' out :
  NoDup ws.*1 → ws ≡ₚ ws' → apply_writes ws out = apply_writes ws' out.
Proof.
  intros Hnd Hperm. revert out Hnd.
  induction Hperm as [|w ws ws' Hperm IH|w1 w2 ws|ws1 ws2 ws3 H12 IH12 H23 IH23];
    intros out Hnd.
  - done.
  - rewrite fmap_cons in Hnd. apply NoDup_cons in Hnd as [_ Hnd].
    apply (IH (<[w.1:=w.2]> out) Hnd).
  - rewrite !fmap_cons in Hnd. apply NoDup_cons in Hnd as [Hne _].
    apply not_elem_of_cons in Hne as [Hne _].
    change (apply_writes ws (<[w1.1:=w1.2]> (<[w2.1:=w2.2]> out)) =
            apply_writes ws (<[w2.1:=w2.2]> (<[w1.1:=w1.2]> out))).
    f_equal. apply list_insert_insert_ne. congruence.
  - rewrite IH12 by done. apply IH23.
    assert (ws1.*1 ≡ₚ ws2.*1) as Hfst by (by apply fmap_Permutation).
    by rewrite <- Hfst.
Qed.

(** ** The loop nest as a producer of stores *)

Section loop_nest_facts.
Context (X Y : @mat R) (sparse_matrix_type : Z) (p j : list Z).

Abbreviation inner_log nnz := (inner_body Rzero Rplus Rmult (log_store nnz) X Y sparse_matrix_type j).
Abbreviation outer_log nnz := (outer_body Rzero Rplus Rmult (log_store nnz) X Y sparse_matrix_type p j).
Abbreviation inner_arr := (inner_body Rzero Rplus Rmult array_store X Y sparse_matrix_type j).
Abbreviation outer_arr := (outer_body Rzero Rplus Rmult array_store X Y sparse_matrix_type p j).

Lemma log_store_appends nnz pp v (l : list (nat * R)) :
  log_store nnz pp v l = log_store nnz pp v [] ≫= λ ws, Ok (l ++ ws).
Proof. unfold log_store. by case_bool_decide. Qed.

Lemma inner_log_appends nnz xc pp (l : list (nat * R)) :
  inner_log nnz xc pp l = inner_log nnz xc pp [] ≫= λ ws, Ok (l ++ ws).
Proof.
  unfold inner_body. rewrite !bind_assoc. apply bind_ext; intros ind.
  rewrite !bind_assoc. apply bind_ext; intros c.
  rewrite !bind_assoc. apply bind_ext; intros v.
  apply log_store_appends.
Qed.

Lemma outer_log_appends nnz i (l : list (nat * R)) :
  outer_log nnz i l = outer_log nnz i [] ≫= λ ws, Ok (l ++ ws).
Proof.
  unfold outer_body. rewrite !bind_assoc. apply bind_ext; intros p1.
  rewrite !bind_assoc. apply bind_ext; intros p2.
  rewrite !bind_assoc. apply bind_ext; intros xc.
  apply for_loop_appends. intros k l'. apply inner_log_appends.
Qed.

Lemma chunk_writes_add lo n1 n2 :
  chunk_writes Rzero Rplus Rmult X Y sparse_matrix_type p j lo (n1 + n2) =
  chunk_writes Rzero Rplus Rmult X Y sparse_matrix_type p j lo n1 ≫= λ ws1,
  chunk_writes Rzero Rplus Rmult X Y sparse_matrix_type p j (lo + n1) n2 ≫= λ ws2,
  Ok (ws1 ++ ws2).
Proof.
  unfold chunk_writes. rewrite for_loop_add. apply bind_ext; intros ws1.
  rewrite Nat2Z.inj_add.
  apply (for_loop_appends _ (outer_log_appends (length j))).
Qed.

(** On an array of [nnz] slots, a store and its record agree. *)
Lemma array_store_log init pp v (l : list (nat * R)) :
  array_store pp v (apply_writes l init) =
  log_store (length init) pp v l ≫= λ l', Ok (apply_writes l' init).
Proof.
  unfold array_store, log_store. rewrite length_apply_writes.
  case_bool_decide; [|done]. simpl. by rewrite apply_writes_app.
Qed.

Lemma inner_arr_log init xc pp (l : list (nat * R)) :
  inner_arr xc pp (apply_writes l init) =
  inner_log (length init) xc pp l ≫= λ l', Ok (apply_writes l' init).
Proof.
  unfold inner_body. rewrite !bind_assoc. apply bind_ext; intros ind.
  rewrite !bind_assoc. apply bind_ext; intros c.
  rewrite !bind_assoc. apply bind_ext; intros v.
  apply array_store_log.
Qed.

Lemma outer_arr_log init i (l : list (nat * R)) :
  outer_arr i (apply_writes l init) =
  outer_log (length init) i l ≫= λ l', Ok (apply_writes l' init).
Proof.
  unfold outer_body. rewrite !bind_assoc. apply bind_ext; intros p1.
  rewrite !bind_assoc. apply bind_ext; intros p2.
  rewrite !bind_assoc. apply bind_ext; intros xc.
  apply (for_loop_through (λ l', apply_writes l' init)).
  intros k l'. apply inner_arr_log.
Qed.

(** The sequential loop makes the stores of all iterations, in order. *)
Lemma sequential_loop_writes init (N : nat) :
  length init = length j →
  for_loop outer_arr 0 N init =
  chunk_writes Rzero Rplus Rmult X Y sparse_matrix_type p j 0 N ≫= λ ws,
  Ok (apply_writes ws init).
Proof.
  intros Hlen. unfold chunk_writes. rewrite <- Hlen.
  apply (for_loop_through (λ l', apply_writes l' init) _ _
           (outer_arr_log init) N 0 []).
Qed.
End loop_nest_facts.

(** ** The parallel region *)

Lemma concat_replicate_nil {A : Type} (n : nat) : concat (replicate n (@nil A)) = [].
Proof. induction n as [|n IH]; [done|]. simpl. exact IH. Qed.

Lemma elem_of_concat {A : Type} (x : A) (l : list A) (ls : list (list A)) :
  x ∈ l → l ∈ ls → x ∈ concat ls.
Proof.
  intros Hx Hl. induction ls as [|l' ls IH]; [by apply elem_of_nil in Hl|].
  simpl. apply elem_of_app. apply elem_of_cons in Hl as [<-|Hl]; auto.
Qed.

(** Replacing what thread [t] holds changes the pending stores by that
    much. *)
Lemma concat_insert_Permutation {A : Type} (ls : list (list A)) (t : nat) (old : list A) :
  ls !! t = Some old →
  ∃ rest, concat ls ≡ₚ old ++ rest ∧
          ∀ new, concat (<[t:=new]> ls) ≡ₚ new ++ rest.
Proof.
  intros Ht. exists (concat (take t ls) ++ concat (drop (S t) ls)). split.
  - rewrite <- (take_drop_middle ls t old Ht) at 1.
    rewrite concat_app, concat_cons.
    rewrite !app_assoc. apply Permutation_app_tail, Permutation_app_comm.
  - intros new. rewrite insert_take_drop by (by eapply lookup_lt_Some).
    rewrite concat_app, concat_cons.
    rewrite !app_assoc. apply Permutation_app_tail, Permutation_app_comm.
Qed.

Section omp_facts.
Context (X Y : @mat R) (sparse_matrix_type : Z) (p j : list Z).
Context (N GRAIN_SIZE : nat) (init : list R).

Abbreviation chunk := (chunk_writes Rzero Rplus Rmult X Y sparse_matrix_type p j).
Abbreviation inv := (omp_inv Rzero Rplus Rmult X Y sparse_matrix_type p j N init).
Abbreviation step := (omp_step Rzero Rplus Rmult X Y sparse_matrix_type p j N GRAIN_SIZE).
Abbreviation run := (omp_run Rzero Rplus Rmult X Y sparse_matrix_type p j N GRAIN_SIZE).
Abbreviation join := (omp_join Rzero Rplus Rmult X Y sparse_matrix_type p j N).

Lemma omp_inv_init (n_threads : Z) :
  inv (OmpState 0 (replicate (Z.to_nat n_threads) []) init).
Proof.
  split; [simpl; lia|]. exists [], []. simpl.
  by rewrite concat_replicate_nil.
Qed.

Lemma omp_step_inv t st st' : inv st → step t st = Ok st' → inv st'.
Proof.
  intros (Hle & handed & made & Hchunk & Hperm & Hshared) Hstep.
  unfold omp_step in Hstep.
  destruct (pending st !! t) as [[|w ws]|] eqn:Ht.
  - apply bind_Ok_inv in Hstep as (ws & Hws & [= <-]).
    destruct (concat_insert_Permutation _ _ _ Ht) as (rest & Hold & Hnew).
    split; [simpl; lia|]. exists (handed ++ ws), made. simpl.
    split; [|split; [|done]].
    + rewrite chunk_writes_add, Hchunk. simpl. by rewrite Hws.
    + rewrite Hperm, Hold, (Hnew ws). simpl.
      rewrite <- !app_assoc. apply Permutation_app_head, Permutation_app_comm.
  - injection Hstep as <-.
    destruct (concat_insert_Permutation _ _ _ Ht) as (rest & Hold & Hnew).
    split; [done|]. exists handed, (made ++ [w]). simpl.
    split; [done|]. split.
    + rewrite Hperm, Hold, (Hnew ws). rewrite <- !app_assoc. reflexivity.
    + rewrite apply_writes_app, Hshared. done.
  - injection Hstep as <-. split; [done|]. by exists handed, made.
Qed.

Lemma omp_run_inv schedule st st' : inv st → run schedule st = Ok st' → inv st'.
Proof.
  revert st. induction schedule as [|t schedule IH]; intros st Hinv Hrun.
  - by injection Hrun as <-.
  - simpl in Hrun. apply bind_Ok_inv in Hrun as (st1 & Hstep & Hrun).
    eauto using omp_step_inv.
Qed.

(** What a completed parallel region has done: the stores of all
    iterations, in some order. *)
Lemma omp_join_inv st out :
  inv st → join st = Ok out →
  ∃ ws trace, chunk 0 N = Ok ws ∧ trace ≡ₚ ws ∧ out = apply_writes trace init.
Proof.
  intros (Hle & handed & made & Hchunk & Hperm & Hshared) Hjoin.
  unfold omp_join in Hjoin.
  apply bind_Ok_inv in Hjoin as (ws & Hws & [= <-]).
  exists (handed ++ ws), (made ++ concat (pending st) ++ ws).
  split; [|split].
  - replace N with (next_iteration st + (N - next_iteration st))%nat at 1 by lia.
    rewrite chunk_writes_add, Hchunk. simpl. by rewrite Hws.
  - rewrite Hperm. by rewrite <- app_assoc.
  - rewrite Hshared, <- apply_writes_app. done.
Qed.

(** When every iteration succeeds, so does every chunk, every step and the
    join. *)
Lemma chunk_writes_Ok_sub ws lo n :
  chunk 0 N = Ok ws → (lo + n ≤ N)%nat → ∃ ws', chunk lo n = Ok ws'.
Proof.
  intros Hall Hle.
  replace N with (lo + (n + (N - lo - n)))%nat in Hall by lia.
  rewrite chunk_writes_add in Hall.
  apply bind_Ok_inv in Hall as (ws1 & _ & Hall).
  apply bind_Ok_inv in Hall as (ws2 & Hall & _).
  rewrite chunk_writes_add in Hall.
  apply bind_Ok_inv in Hall as (ws3 & Hall & _). eauto.
Qed.

Lemma omp_step_total ws t st :
  chunk 0 N = Ok ws → inv st → ∃ st', step t st = Ok st'.
Proof.
  intros Hall (Hle & _). unfold omp_step.
  destruct (pending st !! t) as [[|w ws']|]; [|eauto..].
  destruct (chunk_writes_Ok_sub ws (next_iteration st)
              (GRAIN_SIZE `min` (N - next_iteration st))) as (ws1 & ->);
    [done|lia|]. simpl. eauto.
Qed.

Lemma omp_run_total ws schedule st :
  chunk 0 N = Ok ws → inv st → ∃ st', run schedule st = Ok st'.
Proof.
  intros Hall. revert st.
  induction schedule as [|t schedule IH]; intros st Hinv; simpl; [eauto|].
  destruct (omp_step_total ws t st Hall Hinv) as (st1 & Hstep).
  rewrite Hstep. simpl. eauto using omp_step_inv.
Qed.

Lemma omp_join_total ws st :
  chunk 0 N = Ok ws → inv st → ∃ out, join st = Ok out.
Proof.
  intros Hall (Hle & _). unfold omp_join.
  destruct (chunk_writes_Ok_sub ws (next_iteration st) (N - next_iteration st))
    as (ws1 & ->); [done|lia|]. simpl. eauto.
Qed.

Abbreviation parallel_for :=
  (omp_parallel_for Rzero Rplus Rmult X Y sparse_matrix_type p j N GRAIN_SIZE).

Lemma omp_parallel_for_Ok_inv n_threads schedule out :
  parallel_for n_threads schedule init = Ok out →
  ∃ ws trace, chunk 0 N = Ok ws ∧ trace ≡ₚ ws ∧ out = apply_writes trace init.
Proof.
  unfold omp_parallel_for. intros Hpar.
  apply bind_Ok_inv in Hpar as (st & Hrun & Hjoin).
  eapply omp_join_inv; [|exact Hjoin].
  eapply omp_run_inv; [|exact Hrun]. apply omp_inv_init.
Qed.

(** Schedule independence: when the iterations store to distinct slots,
    the parallel region returns what the sequential loop does, whatever
    the number of threads, the grain and the interleaving. *)
Lemma omp_parallel_for_writes ws n_threads schedule :
  chunk 0 N = Ok ws → NoDup ws.*1 →
  parallel_for n_threads schedule init = Ok (apply_writes ws init).
Proof.
  intros Hall Hnd.
  destruct (omp_run_total ws schedule _ Hall (omp_inv_init n_threads))
    as (st & Hrun).
  pose proof (omp_run_inv _ _ _ (omp_inv_init n_threads) Hrun) as Hinv.
  destruct (omp_join_total ws st Hall Hinv) as (out & Hjoin).
  destruct (omp_join_inv st out Hinv Hjoin) as (ws' & trace & Hws' & Hperm & ->).
  unfold omp_parallel_for. rewrite Hrun. simpl. rewrite Hjoin.
  rewrite Hall in Hws'. injection Hws' as <-.
  f_equal. symmetry. by apply apply_writes_Permutation.
Qed.
End omp_facts.

(** ** Reads *)

Lemma int_at_lookup (v : list Z) (k : nat) :
  (k < length v)%nat → int_at v (Z.of_nat k) = Ok (v !!! k).
Proof.
  intros Hk. unfold int_at.
  destruct (Z.ltb_spec (Z.of_nat k) 0) as [?|_]; [lia|].
  by rewrite Nat2Z.id, (list_lookup_lookup_total_lt v k Hk).
Qed.

Lemma int_at_Ok_inv (v : list Z) (k z : Z) :
  int_at v k = Ok z → 0 ≤ k ∧ v !! Z.to_nat k = Some z.
Proof.
  unfold int_at. destruct (Z.ltb_spec k 0) as [?|?]; [done|].
  destruct (v !! Z.to_nat k); [|done]. by intros [= ->].
Qed.

Lemma length_column (M : @mat R) (c : Z) : length (column M c) = Z.to_nat (n_rows M).
Proof. unfold column. by rewrite length_fmap, length_seqZ. Qed.

Lemma col_Ok (M : @mat R) (c : Z) : c < n_cols M → col M c = Ok (column M c).
Proof. intros Hc. unfold col. by destruct (Z.leb_spec (n_cols M) c); [lia|]. Qed.

Lemma col_Ok_inv (M : @mat R) (c : Z) (v : list R) :
  col M c = Ok v → c < n_cols M ∧ v = column M c.
Proof.
  unfold col. destruct (Z.leb_spec (n_cols M) c); [done|]. by intros [= <-].
Qed.

(** ** Pointer arrays *)

Section ptr_facts.
Context (N nnz : nat) (rp : list Z) (Hptr : ptr_ok N nnz rp).

Lemma ptr_ok_lookup (k : nat) : (k ≤ N)%nat → rp !! k = Some (rp !!! k).
Proof.
  intros Hk. apply list_lookup_lookup_total_lt.
  rewrite (ptr_length _ _ _ Hptr). lia.
Qed.

Lemma ptr_ok_le (k m : nat) : (k + m ≤ N)%nat → rp !!! k ≤ rp !!! (k + m)%nat.
Proof.
  induction m as [|m IH]; intros Hle.
  - by rewrite Nat.add_0_r.
  - etrans; [apply IH; lia|].
    replace (k + Datatypes.S m)%nat with (Datatypes.S (k + m)) by lia.
    apply (ptr_monotone _ _ _ Hptr (k + m)); apply ptr_ok_lookup; lia.
Qed.

Lemma ptr_ok_bounds (k : nat) : (k ≤ N)%nat → 0 ≤ rp !!! k ≤ Z.of_nat nnz.
Proof.
  intros Hk. split.
  - etrans; [|apply (ptr_ok_le 0 k); lia].
    apply (ptr_first _ _ _ Hptr). apply ptr_ok_lookup. lia.
  - pose proof (ptr_ok_le k (N - k)) as Hle.
    replace (k + (N - k))%nat with N in Hle by lia.
    etrans; [apply Hle; lia|].
    pose proof (ptr_last _ _ _ Hptr) as Hlast.
    rewrite ptr_ok_lookup in Hlast by lia. injection Hlast as ->. done.
Qed.
End ptr_facts.

(** ** The stores of the loop nest on in-bounds inputs *)

Section in_bounds_facts.
Context (X Y : @mat R) (sparse_matrix_type : Z) (rp rj : list Z) (N : nat).

Abbreviation F := (outer_factor sparse_matrix_type X Y).
Abbreviation G := (inner_factor sparse_matrix_type X Y).
Abbreviation ip := (inner_product Rzero Rplus Rmult).
Abbreviation runw := (run_writes Rzero Rplus Rmult G rj).
Abbreviation expected := (expected_writes Rzero Rplus Rmult sparse_matrix_type X Y rp rj).

Lemma run_writes_fst (xc : list R) (p1 n : nat) : (runw xc p1 n).*1 = seq p1 n.
Proof.
  unfold run_writes. generalize (seq p1 n). intros l.
  induction l as [|pp l IH]; [done|]. rewrite !fmap_cons. by f_equal.
Qed.

(** Slot [pp] of the run of outer slot [i] is stored the product of column
    [i] of the outer factor and the column of the inner factor that the
    stored index, read as unsigned, names. *)
Lemma expected_writes_elem (k i pp : nat) :
  (i < k)%nat → rp !!! i ≤ Z.of_nat pp < rp !!! Datatypes.S i →
  (pp, ip (column F (Z.of_nat i)) (column G (to_uint32 (rj !!! pp)))) ∈ expected k.
Proof.
  intros Hi Hpp. unfold expected_writes.
  apply (elem_of_concat _ (runw (column F (Z.of_nat i)) (Z.to_nat (rp !!! i))
                                (Z.to_nat (rp !!! Datatypes.S i - rp !!! i)))).
  - unfold run_writes. apply list_elem_of_fmap. exists pp. split; [done|].
    apply elem_of_seq. lia.
  - apply list_elem_of_fmap. exists i. split; [done|]. apply elem_of_seq. lia.
Qed.
Hypothesis HN : Z.of_nat N < 2 ^ 32.
Hypothesis Hptr : ptr_ok N (length rj) rp.
Hypothesis Houter : Z.of_nat N ≤ n_cols F.
Hypothesis Hinner : Forall (λ c, to_uint32 c < n_cols G) rj.
Hypothesis Hrows : n_rows F = n_rows G.

Lemma inner_body_writes (xc : list R) (pp : nat) :
  (pp < length rj)%nat →
  length xc = Z.to_nat (n_rows G) →
  inner_body Rzero Rplus Rmult (log_store (length rj)) X Y sparse_matrix_type
             rj xc (Z.of_nat pp) [] =
  Ok [(pp, ip xc (column G (to_uint32 (rj !!! pp))))].
Proof.
  intros Hpp Hxc. unfold inner_body, uint32_at.
  rewrite int_at_lookup by lia. cbn [mbind result_bind].
  assert (to_uint32 (rj !!! pp) < n_cols G) as Hc.
  { eapply (Forall_lookup_1 _ _ pp _ Hinner).
    apply list_lookup_lookup_total_lt. lia. }
  fold G. rewrite (col_Ok G _ Hc). cbn [mbind result_bind].
  unfold as_scalar_mul. rewrite length_column.
  destruct (decide (length xc = Z.to_nat (n_rows G))) as [_|?]; [|done].
  cbn [mbind result_bind]. unfold log_store.
  rewrite bool_decide_eq_true_2 by lia. by rewrite Nat2Z.id.
Qed.

Lemma inner_loop_writes (xc : list R) (n p1 : nat) :
  (p1 + n ≤ length rj)%nat →
  length xc = Z.to_nat (n_rows G) →
  for_loop (inner_body Rzero Rplus Rmult (log_store (length rj)) X Y
              sparse_matrix_type rj xc) (Z.of_nat p1) n [] =
  Ok (runw xc p1 n).
Proof.
  intros Hle Hxc. revert p1 Hle. induction n as [|n IH]; intros p1 Hle; [done|].
  cbn [for_loop]. rewrite inner_body_writes by (done || lia).
  cbn [mbind result_bind].
  rewrite (for_loop_appends _ (inner_log_appends X Y sparse_matrix_type rj
             (length rj) xc)).
  replace (Z.of_nat p1 + 1) with (Z.of_nat (Datatypes.S p1)) by lia.
  by rewrite IH by lia.
Qed.

Lemma outer_iteration_writes (i : nat) :
  (i < N)%nat →
  outer_body Rzero Rplus Rmult (log_store (length rj)) X Y sparse_matrix_type
             rp rj (Z.of_nat i) [] =
  Ok (runw (column F (Z.of_nat i)) (Z.to_nat (rp !!! i))
           (Z.to_nat (rp !!! Datatypes.S i - rp !!! i))).
Proof.
  intros Hi. unfold outer_body.
  pose proof (ptr_length _ _ _ Hptr) as Hlen.
  rewrite int_at_lookup by lia. cbn [mbind result_bind].
  assert (to_uint32 (Z.of_nat i + 1) = Z.of_nat (Datatypes.S i)) as ->.
  { unfold to_uint32. rewrite Z.mod_small; lia. }
  rewrite int_at_lookup by lia. cbn [mbind result_bind].
  fold F. rewrite (col_Ok F) by lia. cbn [mbind result_bind].
  pose proof (ptr_ok_bounds _ _ _ Hptr i ltac:(lia)) as [Hlo _].
  pose proof (ptr_ok_bounds _ _ _ Hptr (Datatypes.S i) ltac:(lia)) as [_ Hhi].
  pose proof (ptr_ok_le _ _ _ Hptr i 1 ltac:(lia)) as Hmono.
  replace (i + 1)%nat with (Datatypes.S i) in Hmono by lia.
  rewrite <- (Z2Nat.id (rp !!! i)) at 1 by done.
  apply inner_loop_writes; [lia|].
  by rewrite length_column, Hrows.
Qed.

(** On in-bounds inputs no iteration fails, and the stores are the
    expected ones. *)
Lemma chunk_writes_expected (k : nat) :
  (k ≤ N)%nat →
  chunk_writes Rzero Rplus Rmult X Y sparse_matrix_type rp rj 0 k = Ok (expected k).
Proof.
  induction k as [|k IH]; intros Hk; [done|].
  replace (Datatypes.S k) with (k + 1)%nat by lia.
  rewrite chunk_writes_add, IH by lia. cbn [mbind result_bind Nat.add].
  unfold chunk_writes at 1. cbn [for_loop].
  rewrite outer_iteration_writes by lia. cbn [mbind result_bind].
  unfold expected_writes. rewrite seq_app, fmap_app, concat_app. simpl.
  by rewrite app_nil_r.
Qed.

(** The slots stored to are the pointer range, each once. *)
Lemma expected_writes_fst (k : nat) :
  (k ≤ N)%nat →
  (expected k).*1 = seq (Z.to_nat (rp !!! 0%nat)) (Z.to_nat (rp !!! k - rp !!! 0%nat)).
Proof.
  induction k as [|k IH]; intros Hk.
  - by rewrite Z.sub_diag.
  - unfold expected_writes in *. rewrite seq_S, fmap_app, concat_app, fmap_app.
    rewrite IH by lia. simpl. rewrite app_nil_r, run_writes_fst.
    pose proof (ptr_ok_bounds _ _ _ Hptr 0 ltac:(lia)) as [H0 _].
    pose proof (ptr_ok_le _ _ _ Hptr 0 k ltac:(lia)) as H0k.
    pose proof (ptr_ok_le _ _ _ Hptr k 1 ltac:(lia)) as Hk1.
    replace (k + 1)%nat with (Datatypes.S k) in Hk1 by lia. simpl in H0k.
    replace (Z.to_nat (rp !!! Datatypes.S k - rp !!! 0%nat))
      with (Z.to_nat (rp !!! k - rp !!! 0%nat) + Z.to_nat (rp !!! Datatypes.S k - rp !!! k))%nat
      by lia.
    rewrite seq_app. do 2 f_equal. lia.
Qed.

Lemma expected_writes_NoDup (k : nat) : (k ≤ N)%nat → NoDup (expected k).*1.
Proof. intros Hk. rewrite expected_writes_fst by done. apply NoDup_seq. Qed.

End in_bounds_facts.

(** ** The whole function on in-bounds inputs *)

Abbreviation approximate := (cpp_make_sparse_approximation Rzero Rplus Rmult).

Lemma to_uint32_dim (d : Z) : 0 ≤ d < 2 ^ 31 → to_uint32 (to_size_t d) = d.
Proof.
  intros Hd. unfold to_uint32, to_size_t.
  rewrite (Z.mod_small d (2 ^ 64)) by lia. apply Z.mod_small. lia.
Qed.

(** Up to the loop, the function reads the three slots and the two
    dimensions. *)
Lemma approximate_prologue exec tmpl X Y smt n_threads rp rj nr nc :
  smt = CSR ∨ smt = CSC →
  tmpl !! "p" = Some rp →
  tmpl !! (if smt =? CSR then "j" else "i") = Some rj →
  tmpl !! "Dim" = Some [nr; nc] →
  0 ≤ nr < 2 ^ 31 → 0 ≤ nc < 2 ^ 31 →
  approximate exec tmpl X Y smt n_threads =
  let N := Z.to_nat (if smt =? CSR then nr else nc) in
  match exec with
  | NoOpenMP =>
      for_loop (outer_body Rzero Rplus Rmult array_store X Y smt rp rj)
               0 N (replicate (length rj) Rzero)
  | OpenMP GRAIN_SIZE schedule =>
      omp_parallel_for Rzero Rplus Rmult X Y smt rp rj N GRAIN_SIZE
                       n_threads schedule (replicate (length rj) Rzero)
  end.
Proof.
  intros Hfmt Hp Hj HDim Hnr Hnc. unfold cpp_make_sparse_approximation, slot.
  rewrite Hp, HDim. cbn [mbind result_bind].
  assert ((if smt =? CSR then
             match tmpl !! "j" with Some v => Ok v | None => Err (NoSuchSlot "j") end
           else if smt =? CSC then
             match tmpl !! "i" with Some v => Ok v | None => Err (NoSuchSlot "i") end
           else Err (RcppStop unknown_type_message)) = Ok rj) as ->.
  { destruct Hfmt as [-> | ->].
    - rewrite Z.eqb_refl in *. by rewrite Hj.
    - change (CSC =? CSR) with false in *. rewrite Z.eqb_refl. by rewrite Hj. }
  cbn [mbind result_bind]. unfold int_at. simpl.
  rewrite !to_uint32_dim by done. done.
Qed.

(** On in-bounds inputs the function returns the expected stores applied
    to the zero array, however it is executed. *)
Lemma approximate_in_bounds exec tmpl X Y smt n_threads rp rj nr nc :
  in_bounds smt tmpl X Y rp rj nr nc →
  approximate exec tmpl X Y smt n_threads =
  Ok (apply_writes
        (expected_writes Rzero Rplus Rmult smt X Y rp rj
           (Z.to_nat (if smt =? CSR then nr else nc)))
        (replicate (length rj) Rzero)).
Proof.
  intros [Hfmt Hp Hj HDim Hnr Hnc Hptr Houter Hinner Hrows].
  rewrite (approximate_prologue exec tmpl X Y smt n_threads rp rj nr nc)
    by done. cbv zeta.
  set (N := Z.to_nat (if smt =? CSR then nr else nc)) in *.
  assert (Z.of_nat N < 2 ^ 32) as HN by (subst N; destruct (smt =? CSR); lia).
  assert (Z.of_nat N ≤ n_cols (outer_factor smt X Y)) as Houter'
    by (subst N; destruct (smt =? CSR); lia).
  assert (n_rows (outer_factor smt X Y) = n_rows (inner_factor smt X Y)) as Hrows'
    by (unfold outer_factor, inner_factor; destruct (smt =? CSR); done).
  pose proof (chunk_writes_expected X Y smt rp rj N HN Hptr Houter' Hinner Hrows'
                N ltac:(lia)) as Hchunk.
  destruct exec as [|GRAIN_SIZE schedule].
  - rewrite sequential_loop_writes by apply length_replicate.
    by rewrite Hchunk.
  - apply omp_parallel_for_writes; [done|].
    by apply (expected_writes_NoDup X Y smt rp rj N Hptr).
Qed.

(** Its slots: the length of the index array, and in the run of outer slot
    [i] the product of column [i] of the outer factor with the column of
    the inner factor named by the stored index read as unsigned. *)
Lemma approximate_in_bounds_slots exec tmpl X Y smt n_threads rp rj nr nc :
  in_bounds smt tmpl X Y rp rj nr nc →
  ∃ out, approximate exec tmpl X Y smt n_threads = Ok out ∧
    length out = length rj ∧
    ∀ i pp a b c,
      0 ≤ i < (if smt =? CSR then nr else nc) →
      rp !! Z.to_nat i = Some a → rp !! Z.to_nat (i + 1) = Some b →
      a ≤ pp < b → rj !! Z.to_nat pp = Some c →
      out !! Z.to_nat pp =
      Some (inner_product Rzero Rplus Rmult
              (column (outer_factor smt X Y) i)
              (column (inner_factor smt X Y) (to_uint32 c))).
Proof.
  intros Hib. eexists. split; [by apply approximate_in_bounds|].
  destruct Hib as [Hfmt Hp Hj HDim Hnr Hnc Hptr Houter Hinner Hrows].
  set (N := Z.to_nat (if smt =? CSR then nr else nc)) in *.
  split; [by rewrite length_apply_writes, length_replicate|].
  intros i pp a b c Hi Ha Hb Hpp Hc.
  assert (Z.to_nat (i + 1) = Datatypes.S (Z.to_nat i)) as Hi1 by lia.
  rewrite Hi1 in Hb.
  pose proof (list_lookup_total_correct _ _ _ Ha) as Ha'.
  pose proof (list_lookup_total_correct _ _ _ Hb) as Hb'.
  pose proof (list_lookup_total_correct _ _ _ Hc) as Hc'.
  pose proof (ptr_ok_bounds _ _ _ Hptr (Z.to_nat i) ltac:(lia)) as [Hlo _].
  apply apply_writes_lookup.
  - by apply (expected_writes_NoDup X Y smt rp rj N Hptr).
  - rewrite <- Hc', <- (Z2Nat.id i) at 1 by lia.
    apply expected_writes_elem; [subst N; lia | lia].
  - rewrite length_replicate. by eapply lookup_lt_Some.
Qed.

(** ** Well-formed inputs are in bounds *)

Lemma to_uint32_small (c : Z) : 0 ≤ c < 2 ^ 32 → to_uint32 c = c.
Proof. intros Hc. unfold to_uint32. apply Z.mod_small. lia. Qed.

Lemma well_formed_in_bounds tmpl X Y smt rp rj nr nc :
  well_formed smt tmpl X Y rp rj nr nc → in_bounds smt tmpl X Y rp rj nr nc.
Proof.
  intros [Hfmt Hp Hj HDim Hnr Hnc Hptr Hinner HX HY Hrows].
  split; try done.
  - unfold outer_factor. destruct (smt =? CSR); lia.
  - eapply Forall_impl; [exact Hinner|]. intros c Hc. cbn beta in Hc.
    unfold inner_factor.
    rewrite to_uint32_small by (destruct (smt =? CSR); lia).
    destruct (smt =? CSR); lia.
Qed.

Lemma well_formed_index tmpl X Y smt rp rj nr nc (pp : nat) (c : Z) :
  well_formed smt tmpl X Y rp rj nr nc → rj !! pp = Some c → to_uint32 c = c.
Proof.
  intros Hwf Hc. pose proof (wf_nr _ _ _ _ _ _ _ _ Hwf).
  pose proof (wf_nc _ _ _ _ _ _ _ _ Hwf).
  pose proof (Forall_lookup_1 _ _ _ _ (wf_inner _ _ _ _ _ _ _ _ Hwf) Hc) as Hr.
  cbn beta in Hr. apply to_uint32_small. destruct (smt =? CSR); lia.
Qed.

(** C1: for a well-formed CSR pattern and factors of matching dimensions,
    the call returns an array whose slot [pp], for [pp] in the run
    [outer_ptr[i] <= pp < outer_ptr[i+1]] of outer index [i], is the inner
    product of column [i] of [X] with column [inner_index[pp]] of [Y]. *)
Theorem approximate_csr_slot exec tmpl X Y rp rj nr nc n_threads :
  well_formed CSR tmpl X Y rp rj nr nc →
  ∃ out, approximate exec tmpl X Y CSR n_threads = Ok out ∧
    ∀ i pp a b c,
      0 ≤ i < nr →
      rp !! Z.to_nat i = Some a → rp !! Z.to_nat (i + 1) = Some b →
      a ≤ pp < b → rj !! Z.to_nat pp = Some c →
      out !! Z.to_nat pp =
      Some (inner_product Rzero Rplus Rmult (column X i) (column Y c)).
Proof.
  intros Hwf.
  destruct (approximate_in_bounds_slots exec tmpl X Y CSR n_threads rp rj nr nc
              (well_formed_in_bounds _ _ _ _ _ _ _ _ Hwf))
    as (out & Hout & _ & Hslots).
  exists out. split; [done|]. intros i pp a b c Hi Ha Hb Hpp Hc.
  rewrite (Hslots i pp a b c Hi Ha Hb Hpp Hc).
  by rewrite (well_formed_index _ _ _ _ _ _ _ _ _ _ Hwf Hc).
Qed.

(** C2: for a well-formed CSC pattern and factors of matching dimensions,
    the call returns an array whose slot [pp], for [pp] in the run of outer
    index [i], is the inner product of column [i] of [Y] with column
    [inner_index[pp]] of [X]. *)
Theorem approximate_csc_slot exec tmpl X Y rp rj nr nc n_threads :
  well_formed CSC tmpl X Y rp rj nr nc →
  ∃ out, approximate exec tmpl X Y CSC n_threads = Ok out ∧
    ∀ i pp a b c,
      0 ≤ i < nc →
      rp !! Z.to_nat i = Some a → rp !! Z.to_nat (i + 1) = Some b →
      a ≤ pp < b → rj !! Z.to_nat pp = Some c →
      out !! Z.to_nat pp =
      Some (inner_product Rzero Rplus Rmult (column Y i) (column X c)).
Proof.
  intros Hwf.
  destruct (approximate_in_bounds_slots exec tmpl X Y CSC n_threads rp rj nr nc
              (well_formed_in_bounds _ _ _ _ _ _ _ _ Hwf))
    as (out & Hout & _ & Hslots).
  exists out. split; [done|]. intros i pp a b c Hi Ha Hb Hpp Hc.
  rewrite (Hslots i pp a b c Hi Ha Hb Hpp Hc).
  by rewrite (well_formed_index _ _ _ _ _ _ _ _ _ _ Hwf Hc).
Qed.

(** C3: for a valid pattern of either format and valid factors, the
    returned array has as many slots as [inner_index], and it is in pattern
    order: slot [pp] is the value for the entry that [inner_index[pp]]
    stores. *)
Theorem approximate_length_and_order exec tmpl X Y smt rp rj nr nc n_threads :
  well_formed smt tmpl X Y rp rj nr nc →
  ∃ out, approximate exec tmpl X Y smt n_threads = Ok out ∧
    length out = length rj ∧
    ∀ i pp a b c,
      0 ≤ i < (if smt =? CSR then nr else nc) →
      rp !! Z.to_nat i = Some a → rp !! Z.to_nat (i + 1) = Some b →
      a ≤ pp < b → rj !! Z.to_nat pp = Some c →
      out !! Z.to_nat pp =
      Some (inner_product Rzero Rplus Rmult
              (column (outer_factor smt X Y) i)
              (column (inner_factor smt X Y) c)).
Proof.
  intros Hwf.
  destruct (approximate_in_bounds_slots exec tmpl X Y smt n_threads rp rj nr nc
              (well_formed_in_bounds _ _ _ _ _ _ _ _ Hwf))
    as (out & Hout & Hlen & Hslots).
  exists out. split; [done|]. split; [done|].
  intros i pp a b c Hi Ha Hb Hpp Hc.
  rewrite (Hslots i pp a b c Hi Ha Hb Hpp Hc).
  by rewrite (well_formed_index _ _ _ _ _ _ _ _ _ _ Hwf Hc).
Qed.

(** C4: with a format value that is neither CSR (2) nor CSC (1) the call
    returns no array; on a pattern object (one with its slot [p], which is
    read first) it fails with the unknown-type error, whatever the factors,
    the dimensions and the index slots are: nothing of the computation is
    run. *)
Theorem approximate_invalid_format exec tmpl X Y smt n_threads :
  smt ≠ CSR → smt ≠ CSC →
  (∀ out, approximate exec tmpl X Y smt n_threads ≠ Ok out) ∧
  (∀ rp, tmpl !! "p" = Some rp →
     approximate exec tmpl X Y smt n_threads = Err (RcppStop unknown_type_message)).
Proof.
  intros HCSR HCSC.
  assert (∃ e, approximate exec tmpl X Y smt n_threads = Err e ∧
               ∀ rp, tmpl !! "p" = Some rp → e = RcppStop unknown_type_message)
    as (e & Herr & Hstop).
  { unfold cpp_make_sparse_approximation, slot.
    destruct (tmpl !! "p") as [rp|]; cbn [mbind result_bind].
    - destruct (Z.eqb_spec smt CSR) as [?|_]; [done|].
      destruct (Z.eqb_spec smt CSC) as [?|_]; [done|]. eauto.
    - eexists. split; [done|]. by intros rp. }
  split.
  - intros out. by rewrite Herr.
  - intros rp Hp. by rewrite Herr, (Hstop rp Hp).
Qed.

(** C5: for valid inputs the result does not depend on the thread count:
    any two calls, with any two values of [n_threads] and however each is
    scheduled, return the same array. *)
Theorem approximate_thread_count_invariant exec1 exec2 tmpl X Y smt rp rj nr nc n1 n2 :
  well_formed smt tmpl X Y rp rj nr nc →
  ∃ out, approximate exec1 tmpl X Y smt n1 = Ok out ∧
         approximate exec2 tmpl X Y smt n2 = Ok out.
Proof.
  intros Hwf. apply well_formed_in_bounds in Hwf.
  eexists. split; by apply approximate_in_bounds.
Qed.

(** ** Transposition *)

Lemma transpose_pattern_slots (P : gmap string (list Z)) (rp rj : list Z) (nr nc : Z) :
  P !! "p" = Some rp → P !! "j" = Some rj → P !! "Dim" = Some [nr; nc] →
  transpose_pattern P = <["p" := rp]> (<["i" := rj]> (<["Dim" := [nc; nr]]> ∅)).
Proof. intros Hp Hj HDim. unfold transpose_pattern. by rewrite Hp, Hj, HDim. Qed.

Lemma well_formed_transpose P X Y rp rj nr nc :
  well_formed CSR P X Y rp rj nr nc →
  well_formed CSC (transpose_pattern P) Y X rp rj nc nr.
Proof.
  intros [Hfmt Hp Hj HDim Hnr Hnc Hptr Hinner HX HY Hrows].
  change (CSR =? CSR) with true in *. cbn iota in *.
  rewrite (transpose_pattern_slots P rp rj nr nc Hp Hj HDim).
  split; change (CSC =? CSR) with false; cbn iota; try done; by right.
Qed.

(** The transposed pattern denotes the transposed entries. *)
Lemma entries_transpose P X Y rp rj nr nc :
  well_formed CSR P X Y rp rj nr nc →
  entries CSC (transpose_pattern P) = prod_swap <$> entries CSR P.
Proof.
  intros Hwf. pose proof (well_formed_transpose _ _ _ _ _ _ _ Hwf) as Hwf'.
  unfold entries.
  rewrite (wf_p _ _ _ _ _ _ _ _ Hwf'), (wf_j _ _ _ _ _ _ _ _ Hwf'),
    (wf_Dim _ _ _ _ _ _ _ _ Hwf').
  rewrite (wf_p _ _ _ _ _ _ _ _ Hwf), (wf_j _ _ _ _ _ _ _ _ Hwf),
    (wf_Dim _ _ _ _ _ _ _ _ Hwf).
  done.
Qed.

(** C6: for a valid pattern [P] in CSR form and factors [X], [Y], the CSR
    approximation of [P] with [(X, Y)] and the CSC approximation of the
    transposed pattern with [(Y, X)] return the same array; the transposed
    pattern is a valid CSC pattern for [(Y, X)] and denotes the transposed
    entries. *)
Theorem approximate_csr_csc_transpose exec exec' P X Y rp rj nr nc n_threads n_threads' :
  well_formed CSR P X Y rp rj nr nc →
  well_formed CSC (transpose_pattern P) Y X rp rj nc nr ∧
  entries CSC (transpose_pattern P) = prod_swap <$> entries CSR P ∧
  ∃ out, approximate exec P X Y CSR n_threads = Ok out ∧
         approximate exec' (transpose_pattern P) Y X CSC n_threads' = Ok out.
Proof.
  intros Hwf. pose proof (well_formed_transpose _ _ _ _ _ _ _ Hwf) as Hwf'.
  split; [done|]. split; [by eapply entries_transpose|].
  eexists. split.
  - by apply approximate_in_bounds, well_formed_in_bounds.
  - by rewrite (approximate_in_bounds exec' _ Y X CSC n_threads' rp rj nc nr
                  (well_formed_in_bounds _ _ _ _ _ _ _ _ Hwf')).
Qed.

(** C7, as the code has it: with a format value that is neither CSR nor
    CSC, the call on a pattern object fails at once, before anything else
    is read, with one fixed message; the message names the two accepted
    values, CSC=1 and CSR=2. *)
Theorem approximate_invalid_format_message exec tmpl X Y smt n_threads rp :
  tmpl !! "p" = Some rp →
  smt ≠ CSR → smt ≠ CSC →
  approximate exec tmpl X Y smt n_threads = Err (RcppStop unknown_type_message) ∧
  contains "CSC=1" unknown_type_message = true ∧
  contains "CSR=2" unknown_type_message = true ∧
  names_value unknown_type_message CSC = true ∧
  names_value unknown_type_message CSR = true.
Proof.
  intros Hp HCSR HCSC. split; [|by vm_compute].
  unfold cpp_make_sparse_approximation, slot. rewrite Hp.
  cbn [mbind result_bind].
  destruct (Z.eqb_spec smt CSR) as [?|_]; [done|].
  by destruct (Z.eqb_spec smt CSC) as [?|_].
Qed.

(** C8: for a pattern without nonzeros ([inner_index] empty, which makes
    every entry of [outer_ptr] zero) and valid factors, the call returns
    the empty array. *)
Theorem approximate_empty_pattern exec tmpl X Y smt rp nr nc n_threads :
  well_formed smt tmpl X Y rp [] nr nc →
  Forall (λ a, a = 0) rp ∧
  approximate exec tmpl X Y smt n_threads = Ok [].
Proof.
  intros Hwf. split.
  - pose proof (wf_ptr _ _ _ _ _ _ _ _ Hwf) as Hptr.
    apply Forall_lookup_2. intros k a Hk.
    pose proof (lookup_lt_Some _ _ _ Hk) as Hlt.
    rewrite (ptr_length _ _ _ Hptr) in Hlt.
    pose proof (ptr_ok_bounds _ _ _ Hptr k ltac:(lia)) as Hb.
    rewrite (list_lookup_total_correct _ _ _ Hk) in Hb. simpl in Hb. lia.
  - rewrite (approximate_in_bounds exec tmpl X Y smt n_threads rp [] nr nc
               (well_formed_in_bounds _ _ _ _ _ _ _ _ Hwf)).
    f_equal. apply nil_length_inv. by rewrite length_apply_writes.
Qed.

(** ** What a successful call has done *)

(** A call that returns has run every iteration of the outer loop. *)
Lemma approximate_Ok_chunk exec tmpl X Y smt n_threads rp rj nr nc out :
  smt = CSR ∨ smt = CSC →
  tmpl !! "p" = Some rp →
  tmpl !! (if smt =? CSR then "j" else "i") = Some rj →
  tmpl !! "Dim" = Some [nr; nc] →
  0 ≤ nr < 2 ^ 31 → 0 ≤ nc < 2 ^ 31 →
  approximate exec tmpl X Y smt n_threads = Ok out →
  ∃ ws, chunk_writes Rzero Rplus Rmult X Y smt rp rj 0
          (Z.to_nat (if smt =? CSR then nr else nc)) = Ok ws.
Proof.
  intros Hfmt Hp Hj HDim Hnr Hnc.
  rewrite (approximate_prologue exec tmpl X Y smt n_threads rp rj nr nc)
    by done. cbv zeta.
  destruct exec as [|GRAIN_SIZE schedule]; intros Hout.
  - rewrite sequential_loop_writes in Hout by apply length_replicate.
    apply bind_Ok_inv in Hout as (ws & Hws & _). eauto.
  - apply omp_parallel_for_Ok_inv in Hout as (ws & _ & Hws & _). eauto.
Qed.

(** An iteration that succeeds has extracted its column of the outer
    factor, whatever its run of nonzeros is. *)
Lemma outer_body_Ok_col {S : Type} (store : Z → R → S → result S)
    X Y smt rp rj (i : Z) (s s' : S) :
  outer_body Rzero Rplus Rmult store X Y smt rp rj i s = Ok s' →
  i < n_cols (outer_factor smt X Y).
Proof.
  unfold outer_body. intros Hbody.
  apply bind_Ok_inv in Hbody as (p1 & _ & Hbody).
  apply bind_Ok_inv in Hbody as (p2 & _ & Hbody).
  apply bind_Ok_inv in Hbody as (xc & Hcol & _).
  by apply col_Ok_inv in Hcol as [Hlt _].
Qed.

(** ** What any successful call has done *)

Lemma to_uint32_to_size_t (d : Z) : to_uint32 (to_size_t d) = to_uint32 d.
Proof.
  unfold to_uint32, to_size_t.
  apply Z.mod_mod_divide. exists (2 ^ 32). reflexivity.
Qed.

Lemma to_uint32_range (d : Z) : 0 ≤ to_uint32 d < 2 ^ 32.
Proof. unfold to_uint32. apply Z.mod_pos_bound. lia. Qed.

Lemma elem_of_concat_inv {A : Type} (x : A) (ls : list (list A)) :
  x ∈ concat ls → ∃ l, x ∈ l ∧ l ∈ ls.
Proof.
  induction ls as [|l ls IH]; simpl; intros Hx.
  - by apply elem_of_nil in Hx.
  - apply elem_of_app in Hx as [Hx|Hx].
    + exists l. split; [done|]. apply elem_of_cons. by left.
    + destruct (IH Hx) as (l' & Hl' & Hin). exists l'. split; [done|].
      apply elem_of_cons. by right.
Qed.

Section success_facts.
Context (X Y : @mat R) (smt : Z) (rp rj : list Z).

Lemma inner_body_log_Ok_inv (xc : list R) (pp : Z) (ws : list (nat * R)) :
  inner_body Rzero Rplus Rmult (log_store (length rj)) X Y smt rj xc pp [] = Ok ws →
  0 ≤ pp ∧
  ∃ c, rj !! Z.to_nat pp = Some c ∧
       to_uint32 c < n_cols (inner_factor smt X Y) ∧
       length xc = Z.to_nat (n_rows (inner_factor smt X Y)) ∧
       ws = [(Z.to_nat pp,
              inner_product Rzero Rplus Rmult xc
                (column (inner_factor smt X Y) (to_uint32 c)))].
Proof.
  unfold inner_body, uint32_at. intros Hbody.
  apply bind_Ok_inv in Hbody as (ind & Hread & Hbody).
  apply bind_Ok_inv in Hread as (c & Hread & [= <-]).
  apply int_at_Ok_inv in Hread as [Hpp Hc].
  apply bind_Ok_inv in Hbody as (col' & Hcol & Hbody).
  apply col_Ok_inv in Hcol as [Hlt ->].
  apply bind_Ok_inv in Hbody as (v & Hmul & Hstore).
  unfold as_scalar_mul in Hmul.
  destruct (decide _) as [Hlen|?]; [|done]. injection Hmul as <-.
  unfold log_store in Hstore. case_bool_decide; [|done].
  injection Hstore as <-. rewrite length_column in Hlen.
  split; [done|]. exists c. done.
Qed.

Lemma inner_loop_log_Ok_inv (xc : list R) (n : nat) (p1 : Z) (ws : list (nat * R)) :
  for_loop (inner_body Rzero Rplus Rmult (log_store (length rj)) X Y smt rj xc)
           p1 n [] = Ok ws →
  ws = run_writes Rzero Rplus Rmult (inner_factor smt X Y) rj xc (Z.to_nat p1) n ∧
  ∀ pp, p1 ≤ pp < p1 + Z.of_nat n →
    0 ≤ pp ∧
    ∃ c, rj !! Z.to_nat pp = Some c ∧
         to_uint32 c < n_cols (inner_factor smt X Y) ∧
         length xc = Z.to_nat (n_rows (inner_factor smt X Y)).
Proof.
  revert p1 ws. induction n as [|n IH]; intros p1 ws Hloop.
  - injection Hloop as <-. split; [done|]. intros pp Hpp. lia.
  - cbn [for_loop] in Hloop.
    apply bind_Ok_inv in Hloop as (ws1 & Hbody & Hloop).
    apply inner_body_log_Ok_inv in Hbody as (Hp1 & c & Hc & Hlt & Hlen & ->).
    rewrite (for_loop_appends _ (inner_log_appends X Y smt rj (length rj) xc))
      in Hloop.
    apply bind_Ok_inv in Hloop as (ws2 & Hloop & [= <-]).
    apply IH in Hloop as [-> Hrest]. split.
    + unfold run_writes. cbn [seq fmap list_fmap app].
      rewrite (list_lookup_total_correct _ _ _ Hc).
      by replace (Z.to_nat (p1 + 1)) with (Datatypes.S (Z.to_nat p1)) by lia.
    + intros pp Hpp. destruct (decide (pp = p1)) as [->|Hne].
      * split; [done|]. by exists c.
      * apply Hrest. lia.
Qed.

Lemma outer_body_log_Ok_inv (i : Z) (ws : list (nat * R)) :
  0 ≤ i → i + 1 < 2 ^ 32 →
  outer_body Rzero Rplus Rmult (log_store (length rj)) X Y smt rp rj i [] = Ok ws →
  iteration_in_bounds smt X Y rp rj i ∧
  ws = run_writes Rzero Rplus Rmult (inner_factor smt X Y) rj
         (column (outer_factor smt X Y) i)
         (Z.to_nat (rp !!! Z.to_nat i))
         (Z.to_nat (rp !!! Datatypes.S (Z.to_nat i) - rp !!! Z.to_nat i)).
Proof.
  intros Hi Hi1. unfold outer_body. intros Hbody.
  apply bind_Ok_inv in Hbody as (a & Ha & Hbody).
  apply int_at_Ok_inv in Ha as [_ Ha].
  apply bind_Ok_inv in Hbody as (b & Hb & Hbody).
  assert (to_uint32 (i + 1) = i + 1) as Hwrap by (apply to_uint32_small; lia).
  rewrite Hwrap in Hb. apply int_at_Ok_inv in Hb as [_ Hb].
  apply bind_Ok_inv in Hbody as (xc & Hcol & Hloop).
  apply col_Ok_inv in Hcol as [Hlt ->].
  apply inner_loop_log_Ok_inv in Hloop as [-> Hrun].
  assert (Z.to_nat (i + 1) = Datatypes.S (Z.to_nat i)) as Hsucc by lia.
  split.
  - exists a, b. split; [done|]. split; [done|]. split; [done|].
    intros pp Hpp. destruct (Hrun pp ltac:(lia)) as (H0 & c & Hc & Hlt' & Hlen).
    split; [done|]. exists c. split; [done|]. split; [done|].
    rewrite length_column in Hlen.
    unfold outer_factor, inner_factor in Hlen. by destruct (smt =? CSR).
  - rewrite Hsucc in Hb.
    by rewrite (list_lookup_total_correct _ _ _ Ha),
               (list_lookup_total_correct _ _ _ Hb).
Qed.

(** Whatever the pattern, iterations that all succeed have stayed in
    bounds and have made the expected stores. *)
Lemma chunk_writes_Ok_inv (k : nat) (ws : list (nat * R)) :
  Z.of_nat k < 2 ^ 32 →
  chunk_writes Rzero Rplus Rmult X Y smt rp rj 0 k = Ok ws →
  ws = expected_writes Rzero Rplus Rmult smt X Y rp rj k ∧
  ∀ i : nat, (i < k)%nat → iteration_in_bounds smt X Y rp rj (Z.of_nat i).
Proof.
  revert ws. induction k as [|k IH]; intros ws Hk Hchunk.
  - injection Hchunk as <-. split; [done|]. intros i Hi. lia.
  - replace (Datatypes.S k) with (k + 1)%nat in Hchunk by lia.
    rewrite chunk_writes_add in Hchunk.
    apply bind_Ok_inv in Hchunk as (ws1 & Hws1 & Hchunk).
    apply bind_Ok_inv in Hchunk as (ws2 & Hws2 & [= <-]).
    apply IH in Hws1 as [-> Hbefore]; [|lia].
    unfold chunk_writes in Hws2. cbn [for_loop Nat.add] in Hws2.
    apply bind_Ok_inv in Hws2 as (ws3 & Hbody & [= <-]).
    apply outer_body_log_Ok_inv in Hbody as [Hit ->]; [|lia..].
    rewrite Nat2Z.id. split.
    + unfold expected_writes. rewrite seq_S, fmap_app, concat_app. simpl.
      by rewrite app_nil_r.
    + intros i Hi. destruct (decide (i = k)) as [->|Hne]; [done|].
      apply Hbefore. lia.
Qed.
End success_facts.

Lemma approximate_prologue_any exec tmpl X Y smt n_threads rp rj nr nc :
  smt = CSR ∨ smt = CSC →
  tmpl !! "p" = Some rp →
  tmpl !! (if smt =? CSR then "j" else "i") = Some rj →
  tmpl !! "Dim" = Some [nr; nc] →
  approximate exec tmpl X Y smt n_threads =
  let N := Z.to_nat (to_uint32 (if smt =? CSR then nr else nc)) in
  match exec with
  | NoOpenMP =>
      for_loop (outer_body Rzero Rplus Rmult array_store X Y smt rp rj)
               0 N (replicate (length rj) Rzero)
  | OpenMP GRAIN_SIZE schedule =>
      omp_parallel_for Rzero Rplus Rmult X Y smt rp rj N GRAIN_SIZE
                       n_threads schedule (replicate (length rj) Rzero)
  end.
Proof.
  intros Hfmt Hp Hj HDim. unfold cpp_make_sparse_approximation, slot.
  rewrite Hp, HDim. cbn [mbind result_bind].
  assert ((if smt =? CSR then
             match tmpl !! "j" with Some v => Ok v | None => Err (NoSuchSlot "j") end
           else if smt =? CSC then
             match tmpl !! "i" with Some v => Ok v | None => Err (NoSuchSlot "i") end
           else Err (RcppStop unknown_type_message)) = Ok rj) as ->.
  { destruct Hfmt as [-> | ->].
    - rewrite Z.eqb_refl in *. by rewrite Hj.
    - change (CSC =? CSR) with false in *. rewrite Z.eqb_refl. by rewrite Hj. }
  cbn [mbind result_bind]. unfold int_at. simpl.
  rewrite !to_uint32_to_size_t. by destruct (smt =? CSR).
Qed.

Lemma approximate_Ok_format exec tmpl X Y smt n_threads out :
  approximate exec tmpl X Y smt n_threads = Ok out → smt = CSR ∨ smt = CSC.
Proof.
  unfold cpp_make_sparse_approximation. intros Hout.
  apply bind_Ok_inv in Hout as (rp & _ & Hout).
  apply bind_Ok_inv in Hout as (rj & Hrj & _).
  destruct (Z.eqb_spec smt CSR) as [?|_]; [by left|].
  destruct (Z.eqb_spec smt CSC) as [?|_]; [by right|done].
Qed.

(** A call that returns has made the expected stores, in some order, on
    the zero array, and every iteration has stayed in bounds. *)
Lemma approximate_Ok_inv exec tmpl X Y smt n_threads rp rj nr nc out :
  tmpl !! "p" = Some rp →
  tmpl !! (if smt =? CSR then "j" else "i") = Some rj →
  tmpl !! "Dim" = Some [nr; nc] →
  approximate exec tmpl X Y smt n_threads = Ok out →
  (∃ trace,
     trace ≡ₚ expected_writes Rzero Rplus Rmult smt X Y rp rj
                (Z.to_nat (to_uint32 (if smt =? CSR then nr else nc))) ∧
     out = apply_writes trace (replicate (length rj) Rzero)) ∧
  ∀ i, 0 ≤ i < to_uint32 (if smt =? CSR then nr else nc) →
    iteration_in_bounds smt X Y rp rj i.
Proof.
  intros Hp Hj HDim Hout.
  pose proof (approximate_Ok_format _ _ _ _ _ _ _ Hout) as Hfmt.
  rewrite (approximate_prologue_any exec tmpl X Y smt n_threads rp rj nr nc)
    in Hout by done. cbv zeta in Hout.
  pose proof (to_uint32_range (if smt =? CSR then nr else nc)) as HN.
  set (N := Z.to_nat (to_uint32 (if smt =? CSR then nr else nc))) in *.
  assert (∃ ws trace,
            chunk_writes Rzero Rplus Rmult X Y smt rp rj 0 N = Ok ws ∧
            trace ≡ₚ ws ∧
            out = apply_writes trace (replicate (length rj) Rzero))
    as (ws & trace & Hws & Hperm & ->).
  { destruct exec as [|GRAIN_SIZE schedule].
    - rewrite sequential_loop_writes in Hout by apply length_replicate.
      apply bind_Ok_inv in Hout as (ws & Hws & [= <-]). by exists ws, ws.
    - by apply omp_parallel_for_Ok_inv in Hout. }
  apply chunk_writes_Ok_inv in Hws as [-> Hits]; [|subst N; lia].
  split; [by exists trace|].
  intros i Hi. rewrite <- (Z2Nat.id i) by lia. apply Hits. subst N. lia.
Qed.

(** X1: a call that returns an array was given one of the two formats,
    and the array has one slot per stored index; this holds for every
    object with the slots read, well-formed or not. *)
Theorem approximate_Ok_length exec tmpl X Y smt n_threads rp rj nr nc out :
  tmpl !! "p" = Some rp →
  tmpl !! (if smt =? CSR then "j" else "i") = Some rj →
  tmpl !! "Dim" = Some [nr; nc] →
  approximate exec tmpl X Y smt n_threads = Ok out →
  (smt = CSR ∨ smt = CSC) ∧ length out = length rj.
Proof.
  intros Hp Hj HDim Hout. split; [by eapply approximate_Ok_format|].
  destruct (approximate_Ok_inv _ _ _ _ _ _ _ _ _ _ _ Hp Hj HDim Hout)
    as [(trace & _ & ->) _].
  by rewrite length_apply_writes, length_replicate.
Qed.

Lemma expected_writes_fst_elem X Y smt rp rj (n k : nat) :
  k ∈ (expected_writes Rzero Rplus Rmult smt X Y rp rj n).*1 →
  ∃ i : nat, (i < n)%nat ∧
    (Z.to_nat (rp !!! i) ≤ k
     < Z.to_nat (rp !!! i) + Z.to_nat (rp !!! Datatypes.S i - rp !!! i))%nat.
Proof.
  intros Hk. apply list_elem_of_fmap in Hk as ([k' v] & -> & Hw).
  unfold expected_writes in Hw.
  apply elem_of_concat_inv in Hw as (l & Hw & Hl).
  apply list_elem_of_fmap in Hl as (i & -> & Hi).
  apply elem_of_seq in Hi. exists i. split; [lia|].
  unfold run_writes in Hw.
  apply list_elem_of_fmap in Hw as (pp & [= -> _] & Hpp).
  apply elem_of_seq in Hpp. simpl. lia.
Qed.

(** X3: in the array a call returns, a slot that lies in no run still
    holds the zero the array was created with. *)
Theorem approximate_unowned_slot_zero exec tmpl X Y smt n_threads rp rj nr nc out :
  tmpl !! "p" = Some rp →
  tmpl !! (if smt =? CSR then "j" else "i") = Some rj →
  tmpl !! "Dim" = Some [nr; nc] →
  approximate exec tmpl X Y smt n_threads = Ok out →
  ∀ pp, 0 ≤ pp < Z.of_nat (length rj) →
    (∀ i a b, 0 ≤ i < to_uint32 (if smt =? CSR then nr else nc) →
       rp !! Z.to_nat i = Some a → rp !! Z.to_nat (i + 1) = Some b →
       ¬ (a ≤ pp < b)) →
    out !! Z.to_nat pp = Some Rzero.
Proof.
  intros Hp Hj HDim Hout pp Hpp Hfree.
  destruct (approximate_Ok_inv _ _ _ _ _ _ _ _ _ _ _ Hp Hj HDim Hout)
    as [(trace & Hperm & ->) Hits].
  rewrite apply_writes_lookup_other.
  { apply lookup_replicate_2. lia. }
  intros Hin.
  assert (trace.*1 ≡ₚ
          (expected_writes Rzero Rplus Rmult smt X Y rp rj
             (Z.to_nat (to_uint32 (if smt =? CSR then nr else nc)))).*1) as Hfst
    by (by apply fmap_Permutation).
  rewrite Hfst in Hin.
  apply expected_writes_fst_elem in Hin as (i & Hi & Hrun).
  pose proof (to_uint32_range (if smt =? CSR then nr else nc)) as HN.
  destruct (Hits (Z.of_nat i) ltac:(lia)) as (a & b & Ha & Hb & _ & Hslots).
  rewrite Nat2Z.id in Ha.
  replace (Z.to_nat (Z.of_nat i + 1)) with (Datatypes.S i) in Hb by lia.
  rewrite (list_lookup_total_correct _ _ _ Ha),
          (list_lookup_total_correct _ _ _ Hb) in Hrun.
  assert (a < b) as Hab by lia.
  destruct (Hslots a ltac:(lia)) as [Ha0 _].
  apply (Hfree (Z.of_nat i) a b); [lia| |  |lia].
  - by rewrite Nat2Z.id.
  - by replace (Z.to_nat (Z.of_nat i + 1)) with (Datatypes.S i) by lia.
Qed.

(** X4: a format that does not fit the object is caught by the slot
    lookup: with format CSR an object without slot [j] (a column-compressed
    object), and with format CSC an object without slot [i], fails with
    the missing slot named, before the dimensions or the factors are
    looked at. *)
Theorem approximate_format_object_mismatch exec tmpl X Y smt n_threads rp :
  smt = CSR ∨ smt = CSC →
  tmpl !! "p" = Some rp →
  tmpl !! (if smt =? CSR then "j" else "i") = None →
  approximate exec tmpl X Y smt n_threads
  = Err (NoSuchSlot (if smt =? CSR then "j" else "i")).
Proof.
  intros Hfmt Hp Hj. unfold cpp_make_sparse_approximation, slot.
  rewrite Hp. cbn [mbind result_bind].
  destruct Hfmt as [-> | ->].
  - rewrite Z.eqb_refl in *. by rewrite Hj.
  - change (CSC =? CSR) with false in *. rewrite Z.eqb_refl. by rewrite Hj.
Qed.

(** X5: only the slots [p], [Dim] and [j] or [i] are read: adding or
    replacing any other slot of the object changes nothing. *)
Theorem approximate_ignores_other_slots exec tmpl X Y smt n_threads name v :
  name ≠ "p" → name ≠ "j" → name ≠ "i" → name ≠ "Dim" →
  cpp_make_sparse_approximation Rzero Rplus Rmult exec (<[name := v]> tmpl)
    X Y smt n_threads
  = cpp_make_sparse_approximation Rzero Rplus Rmult exec tmpl X Y smt n_threads.
Proof.
  intros Hp Hj Hi HDim. unfold cpp_make_sparse_approximation, slot.
  by rewrite !lookup_insert_ne by done.
Qed.

(** ** The factors are read through the columns used only *)

Lemma for_loop_ext_range {S : Type} (body body' : Z → S → result S) lo n s :
  (∀ k s', lo ≤ k < lo + Z.of_nat n → body k s' = body' k s') →
  for_loop body lo n s = for_loop body' lo n s.
Proof.
  revert lo s. induction n as [|n IH]; intros lo s Hbody; simpl; [done|].
  rewrite Hbody by lia. apply bind_ext. intros s'. apply IH.
  intros k s'' Hk. apply Hbody. lia.
Qed.

Lemma column_agree (used : Z → Prop) (M M' : @mat R) (c : Z) :
  agree_on used M M' → used c → column M c = column M' c.
Proof.
  intros (Hrows & _ & Hat) Hc. unfold column. rewrite <- Hrows.
  apply Forall_fmap_ext_1, Forall_forall. intros r Hr.
  apply elem_of_seqZ in Hr. apply Hat; [done|lia].
Qed.

Lemma col_agree (used : Z → Prop) (M M' : @mat R) (c : Z) :
  agree_on used M M' → used c → col M c = col M' c.
Proof.
  intros Hagree Hc. unfold col.
  rewrite (column_agree used M M' c Hagree Hc).
  destruct Hagree as (_ & <- & _). done.
Qed.

Section agree_facts.
Context (X Y X' Y' : @mat R) (smt : Z) (rp rj : list Z) (N : nat).
Hypothesis Houter :
  agree_on (λ c, 0 ≤ c < Z.of_nat N) (outer_factor smt X Y) (outer_factor smt X' Y').
Hypothesis Hinner :
  agree_on (λ c, ∃ k, k ∈ rj ∧ c = to_uint32 k)
           (inner_factor smt X Y) (inner_factor smt X' Y').

Lemma inner_body_agree {S : Type} (store : Z → R → S → result S) xc pp s :
  inner_body Rzero Rplus Rmult store X Y smt rj xc pp s =
  inner_body Rzero Rplus Rmult store X' Y' smt rj xc pp s.
Proof.
  unfold inner_body, uint32_at.
  destruct (int_at rj pp) as [c|e] eqn:Hread; [|done].
  cbn [mbind result_bind].
  apply int_at_Ok_inv in Hread as [_ Hc].
  change (if smt =? CSR then Y else X) with (inner_factor smt X Y).
  change (if smt =? CSR then Y' else X') with (inner_factor smt X' Y').
  rewrite (col_agree _ _ _ (to_uint32 c) Hinner); [done|].
  exists c. split; [|done]. by eapply list_elem_of_lookup_2.
Qed.

Lemma outer_body_agree {S : Type} (store : Z → R → S → result S) i s :
  0 ≤ i < Z.of_nat N →
  outer_body Rzero Rplus Rmult store X Y smt rp rj i s =
  outer_body Rzero Rplus Rmult store X' Y' smt rp rj i s.
Proof.
  intros Hi. unfold outer_body.
  apply bind_ext; intros p1. apply bind_ext; intros p2.
  change (if smt =? CSR then X else Y) with (outer_factor smt X Y).
  change (if smt =? CSR then X' else Y') with (outer_factor smt X' Y').
  rewrite (col_agree _ _ _ i Houter Hi).
  apply bind_ext; intros xc.
  apply for_loop_ext. intros k s'. apply inner_body_agree.
Qed.

Lemma chunk_writes_agree lo n :
  n = 0%nat ∨ (lo + n ≤ N)%nat →
  chunk_writes Rzero Rplus Rmult X Y smt rp rj lo n =
  chunk_writes Rzero Rplus Rmult X' Y' smt rp rj lo n.
Proof.
  intros [-> | Hle]; [done|]. unfold chunk_writes. apply for_loop_ext_range.
  intros k s Hk. apply outer_body_agree. lia.
Qed.

Lemma omp_step_agree GRAIN_SIZE t st :
  omp_step Rzero Rplus Rmult X Y smt rp rj N GRAIN_SIZE t st =
  omp_step Rzero Rplus Rmult X' Y' smt rp rj N GRAIN_SIZE t st.
Proof.
  unfold omp_step. destruct (pending st !! t) as [[|w ws]|]; [|done..].
  rewrite chunk_writes_agree; [done|lia].
Qed.

Lemma omp_run_agree GRAIN_SIZE schedule st :
  omp_run Rzero Rplus Rmult X Y smt rp rj N GRAIN_SIZE schedule st =
  omp_run Rzero Rplus Rmult X' Y' smt rp rj N GRAIN_SIZE schedule st.
Proof.
  revert st. induction schedule as [|t schedule IH]; intros st; [done|].
  simpl. rewrite omp_step_agree. apply bind_ext. intros st'. apply IH.
Qed.

Lemma omp_parallel_for_agree GRAIN_SIZE n_threads schedule out :
  omp_parallel_for Rzero Rplus Rmult X Y smt rp rj N GRAIN_SIZE n_threads schedule out =
  omp_parallel_for Rzero Rplus Rmult X' Y' smt rp rj N GRAIN_SIZE n_threads schedule out.
Proof.
  unfold omp_parallel_for. rewrite omp_run_agree.
  apply bind_ext. intros st. unfold omp_join.
  rewrite chunk_writes_agree; [done|lia].
Qed.
End agree_facts.

(** X6: the result depends on the factors through their dimensions and
    the columns used only: the columns of the outer factor below the outer
    dimension and the columns of the inner factor that the stored indices,
    read as unsigned, name. Two pairs of factors that agree there give
    the same result, error or array. *)
Theorem approximate_depends_on_used_columns
    exec tmpl X Y X' Y' smt n_threads rp rj nr nc :
  tmpl !! "p" = Some rp →
  tmpl !! (if smt =? CSR then "j" else "i") = Some rj →
  tmpl !! "Dim" = Some [nr; nc] →
  agree_on (λ c, 0 ≤ c < to_uint32 (if smt =? CSR then nr else nc))
           (outer_factor smt X Y) (outer_factor smt X' Y') →
  agree_on (λ c, ∃ k, k ∈ rj ∧ c = to_uint32 k)
           (inner_factor smt X Y) (inner_factor smt X' Y') →
  approximate exec tmpl X Y smt n_threads = approximate exec tmpl X' Y' smt n_threads.
Proof.
  intros Hp Hj HDim Houter Hinner.
  destruct (decide (smt = CSR ∨ smt = CSC)) as [Hfmt|Hfmt].
  - rewrite !(approximate_prologue_any exec tmpl _ _ smt n_threads rp rj nr nc)
      by done. cbv zeta.
    pose proof (to_uint32_range (if smt =? CSR then nr else nc)) as HN.
    set (N := Z.to_nat (to_uint32 (if smt =? CSR then nr else nc))).
    assert (agree_on (λ c, 0 ≤ c < Z.of_nat N)
                     (outer_factor smt X Y) (outer_factor smt X' Y')) as Houter'.
    { subst N. by rewrite Z2Nat.id by lia. }
    destruct exec as [|GRAIN_SIZE schedule].
    + apply for_loop_ext_range. intros k s Hk.
      apply (outer_body_agree X Y X' Y' smt rp rj N Houter' Hinner). lia.
    + by apply omp_parallel_for_agree.
  - unfold cpp_make_sparse_approximation, slot. rewrite Hp.
    cbn [mbind result_bind].
    destruct (Z.eqb_spec smt CSR) as [?|_]; [tauto|].
    destruct (Z.eqb_spec smt CSC) as [?|_]; [tauto|]. done.
Qed.

(** ** The mapped views *)

Lemma fmap_to_uint32_id (l : list Z) :
  Forall (λ c, 0 ≤ c < 2 ^ 32) l → to_uint32 <$> l = l.
Proof.
  intros Hl. rewrite <- (list_fmap_id l) at 2.
  apply Forall_fmap_ext_1. eapply Forall_impl; [exact Hl|].
  intros c Hc. by apply to_uint32_small.
Qed.

Lemma ptr_ok_Forall (N nnz : nat) (rp : list Z) :
  ptr_ok N nnz rp → Forall (λ a, 0 ≤ a ≤ Z.of_nat nnz) rp.
Proof.
  intros Hptr. apply Forall_lookup_2. intros k a Hk.
  pose proof (lookup_lt_Some _ _ _ Hk) as Hlt.
  rewrite (ptr_length _ _ _ Hptr) in Hlt.
  pose proof (ptr_ok_bounds _ _ _ Hptr k ltac:(lia)) as Hb.
  by rewrite (list_lookup_total_correct _ _ _ Hk) in Hb.
Qed.

(** What the two extractions return when the slots are there. *)
Lemma extract_mapped_csr_slots (obj : @S4 R) rp rj nr nc x :
  integer_slots obj !! "p" = Some rp →
  integer_slots obj !! "j" = Some rj →
  integer_slots obj !! "Dim" = Some [nr; nc] →
  numeric_slots obj !! "x" = Some x →
  extract_mapped_csr obj =
  Ok (Mapped (to_uint32 nr) (to_uint32 nc) (Z.of_nat (length x))
             (to_uint32 <$> rj) (to_uint32 <$> rp) x).
Proof.
  intros Hp Hj HDim Hx. unfold extract_mapped_csr, slot, numeric_slot.
  by rewrite HDim, Hx, Hj, Hp.
Qed.

Lemma extract_mapped_csc_slots (obj : @S4 R) rp ri nr nc x :
  integer_slots obj !! "p" = Some rp →
  integer_slots obj !! "i" = Some ri →
  integer_slots obj !! "Dim" = Some [nr; nc] →
  numeric_slots obj !! "x" = Some x →
  extract_mapped_csc obj =
  Ok (Mapped (to_uint32 nr) (to_uint32 nc) (Z.of_nat (length x))
             (to_uint32 <$> ri) (to_uint32 <$> rp) x).
Proof.
  intros Hp Hi HDim Hx. unfold extract_mapped_csc, slot, numeric_slot.
  by rewrite HDim, Hx, Hi, Hp.
Qed.

Lemma well_formed_unsigned tmpl X Y smt rp rj nr nc :
  well_formed smt tmpl X Y rp rj nr nc →
  Z.of_nat (length rj) < 2 ^ 31 →
  to_uint32 nr = nr ∧ to_uint32 nc = nc ∧
  to_uint32 <$> rj = rj ∧ to_uint32 <$> rp = rp.
Proof.
  intros [Hfmt Hp Hj HDim Hnr Hnc Hptr Hinner HX HY Hrows] Hnnz.
  split; [apply to_uint32_small; lia|]. split; [apply to_uint32_small; lia|].
  split; apply fmap_to_uint32_id.
  - eapply Forall_impl; [exact Hinner|]. intros c Hc. cbn beta in Hc.
    destruct (smt =? CSR); lia.
  - eapply Forall_impl; [exact (ptr_ok_Forall _ _ _ Hptr)|].
    intros a Ha. cbn beta in Ha. lia.
Qed.

(** X7: on a well-formed row-compressed object whose number of stored
    indices fits an [int], the casts of [extract_mapped_csr] lose nothing:
    the view carries the dimensions, the index array and the pointer array
    of the object as they are, and the length of [x] as [nnz]. *)
Theorem extract_mapped_csr_well_formed (obj : @S4 R) X Y rp rj nr nc x :
  well_formed CSR (integer_slots obj) X Y rp rj nr nc →
  numeric_slots obj !! "x" = Some x →
  Z.of_nat (length rj) < 2 ^ 31 →
  extract_mapped_csr obj = Ok (Mapped nr nc (Z.of_nat (length x)) rj rp x).
Proof.
  intros Hwf Hx Hnnz.
  destruct (well_formed_unsigned _ _ _ _ _ _ _ _ Hwf Hnnz) as (Hr & Hc & Hj & Hp).
  rewrite (extract_mapped_csr_slots obj rp rj nr nc x
             (wf_p _ _ _ _ _ _ _ _ Hwf) (wf_j _ _ _ _ _ _ _ _ Hwf)
             (wf_Dim _ _ _ _ _ _ _ _ Hwf) Hx).
  by rewrite Hr, Hc, Hj, Hp.
Qed.

(** X8: the same for [extract_mapped_csc] on a well-formed
    column-compressed object. *)
Theorem extract_mapped_csc_well_formed (obj : @S4 R) X Y rp ri nr nc x :
  well_formed CSC (integer_slots obj) X Y rp ri nr nc →
  numeric_slots obj !! "x" = Some x →
  Z.of_nat (length ri) < 2 ^ 31 →
  extract_mapped_csc obj = Ok (Mapped nr nc (Z.of_nat (length x)) ri rp x).
Proof.
  intros Hwf Hx Hnnz.
  destruct (well_formed_unsigned _ _ _ _ _ _ _ _ Hwf Hnnz) as (Hr & Hc & Hi & Hp).
  rewrite (extract_mapped_csc_slots obj rp ri nr nc x
             (wf_p _ _ _ _ _ _ _ _ Hwf) (wf_j _ _ _ _ _ _ _ _ Hwf)
             (wf_Dim _ _ _ _ _ _ _ _ Hwf) Hx).
  by rewrite Hr, Hc, Hi, Hp.
Qed.

(** X9: the column-compressed view of the transposed object is the
    row-compressed view of the object with the two dimensions exchanged:
    same index array, same pointer array, same values. *)
Theorem extract_mapped_transpose (obj : @S4 R) rp rj nr nc x :
  integer_slots obj !! "p" = Some rp →
  integer_slots obj !! "j" = Some rj →
  integer_slots obj !! "Dim" = Some [nr; nc] →
  numeric_slots obj !! "x" = Some x →
  ∃ v, extract_mapped_csr obj = Ok v ∧
       extract_mapped_csc (transpose_object obj) = Ok (transpose_view v).
Proof.
  intros Hp Hj HDim Hx. eexists. split.
  - by apply extract_mapped_csr_slots.
  - rewrite (extract_mapped_csc_slots (transpose_object obj) rp rj nc nr x);
      [done|..|done]; simpl;
      by rewrite (transpose_pattern_slots _ rp rj nr nc Hp Hj HDim).
Qed.

(** X10: the array returned for in-bounds inputs is aligned with the view
    extracted from the same object: it has one slot per entry of the
    view's index array, and for every outer index [i] of the view and every
    [pp] between the view's pointers [outer_ptr[i]] and [outer_ptr[i+1]]
    slot [pp] is the inner product of column [i] of the outer factor with
    the column of the inner factor that the view's [inner_index[pp]]
    names. *)
Theorem approximate_aligned_with_view exec (obj : @S4 R) X Y smt n_threads
    rp rj nr nc v :
  in_bounds smt (integer_slots obj) X Y rp rj nr nc →
  Z.of_nat (length rj) < 2 ^ 31 →
  (if smt =? CSR then extract_mapped_csr obj else extract_mapped_csc obj) = Ok v →
  ∃ out, approximate exec (integer_slots obj) X Y smt n_threads = Ok out ∧
    length out = length (view_inner_index v) ∧
    ∀ i pp,
      0 ≤ i < (if smt =? CSR then view_nrows v else view_ncols v) →
      view_outer_ptr v !!! Z.to_nat i ≤ pp < view_outer_ptr v !!! Z.to_nat (i + 1) →
      out !! Z.to_nat pp =
      Some (inner_product Rzero Rplus Rmult
              (column (outer_factor smt X Y) i)
              (column (inner_factor smt X Y) (view_inner_index v !!! Z.to_nat pp))).
Proof.
  intros Hib Hnnz Hview.
  destruct (approximate_in_bounds_slots exec _ X Y smt n_threads rp rj nr nc Hib)
    as (out & Hout & Hlen & Hslots).
  destruct Hib as [Hfmt Hp Hj HDim Hnr Hnc Hptr Houter Hinner Hrows].
  assert (∃ x, v = Mapped nr nc (Z.of_nat (length x)) (to_uint32 <$> rj) rp x)
    as (x & ->).
  { assert (to_uint32 <$> rp = rp) as Hrp.
    { apply fmap_to_uint32_id.
      eapply Forall_impl; [exact (ptr_ok_Forall _ _ _ Hptr)|].
      intros a Ha. cbn beta in Ha. lia. }
    destruct Hfmt as [-> | ->].
    - rewrite Z.eqb_refl in *.
      unfold extract_mapped_csr, slot, numeric_slot in Hview.
      rewrite HDim, Hj, Hp in Hview. cbn [mbind result_bind] in Hview.
      destruct (numeric_slots obj !! "x") as [x|]; [|done].
      injection Hview as <-. exists x.
      by rewrite Hrp, !to_uint32_small by lia.
    - change (CSC =? CSR) with false in *.
      unfold extract_mapped_csc, slot, numeric_slot in Hview.
      rewrite HDim, Hj, Hp in Hview. cbn [mbind result_bind] in Hview.
      destruct (numeric_slots obj !! "x") as [x|]; [|done].
      injection Hview as <-. exists x.
      by rewrite Hrp, !to_uint32_small by lia. }
  cbn [view_inner_index view_outer_ptr view_nrows view_ncols].
  exists out. split; [done|]. split; [by rewrite length_fmap|].
  intros i pp Hi Hpp.
  assert (0 ≤ i < (if smt =? CSR then nr else nc)) as Hi'
    by (by destruct (smt =? CSR)).
  assert (Z.to_nat (i + 1) = Datatypes.S (Z.to_nat i)) as Hsucc by lia.
  rewrite Hsucc in Hpp.
  pose proof (ptr_ok_bounds _ _ _ Hptr (Z.to_nat i) ltac:(lia)) as [Hlo _].
  pose proof (ptr_ok_bounds _ _ _ Hptr (Datatypes.S (Z.to_nat i)) ltac:(lia))
    as [_ Hhi].
  assert (Z.to_nat pp < length rj)%nat as Hlt by lia.
  rewrite (list_lookup_total_fmap to_uint32 rj (Z.to_nat pp) Hlt).
  apply (Hslots i pp (rp !!! Z.to_nat i) (rp !!! Datatypes.S (Z.to_nat i))
           (rj !!! Z.to_nat pp)); [done| | |done|].
  - apply (ptr_ok_lookup _ _ _ Hptr). lia.
  - rewrite Hsucc. apply (ptr_ok_lookup _ _ _ Hptr). lia.
  - by apply list_lookup_lookup_total_lt.
Qed.

(** ** Success does not depend on the execution *)

(** The loop, run in order or in parallel, succeeds exactly when every
    iteration does. *)
Lemma loop_success exec X Y smt rp rj (N : nat) n_threads :
  (∃ out,
     match exec with
     | NoOpenMP =>
         for_loop (outer_body Rzero Rplus Rmult array_store X Y smt rp rj)
                  0 N (replicate (length rj) Rzero)
     | OpenMP GRAIN_SIZE schedule =>
         omp_parallel_for Rzero Rplus Rmult X Y smt rp rj N GRAIN_SIZE
                          n_threads schedule (replicate (length rj) Rzero)
     end = Ok out) ↔
  ∃ ws, chunk_writes Rzero Rplus Rmult X Y smt rp rj 0 N = Ok ws.
Proof.
  destruct exec as [|GRAIN_SIZE schedule].
  - rewrite sequential_loop_writes by apply length_replicate. split.
    + intros (out & Hout). apply bind_Ok_inv in Hout as (ws & Hws & _). eauto.
    + intros (ws & ->). simpl. eauto.
  - split.
    + intros (out & Hout).
      apply omp_parallel_for_Ok_inv in Hout as (ws & _ & Hws & _). eauto.
    + intros (ws & Hws). unfold omp_parallel_for.
      destruct (omp_run_total X Y smt rp rj N GRAIN_SIZE
                  (replicate (length rj) Rzero) ws schedule _ Hws
                  (omp_inv_init X Y smt rp rj N (replicate (length rj) Rzero)
                     n_threads)) as (st & Hrun).
      rewrite Hrun. cbn [mbind result_bind].
      apply (omp_join_total X Y smt rp rj N (replicate (length rj) Rzero) ws);
        [done|].
      eapply omp_run_inv; [|exact Hrun]. apply omp_inv_init.
Qed.

(** X12: whether a call returns an array or fails does not depend on how
    it is executed: for the same object, factors and format, a sequential
    run and parallel runs with any thread count, grain and schedule all
    succeed or all fail. This needs no well-formedness: on overlapping runs
    the schedule can change values, never success. *)
Theorem approximate_success_independent_of_execution
    exec1 exec2 tmpl X Y smt n1 n2 :
  (∃ out, cpp_make_sparse_approximation Rzero Rplus Rmult
            exec1 tmpl X Y smt n1 = Ok out) ↔
  (∃ out, cpp_make_sparse_approximation Rzero Rplus Rmult
            exec2 tmpl X Y smt n2 = Ok out).
Proof.
  unfold cpp_make_sparse_approximation.
  destruct (slot tmpl "p") as [rp|e]; cbn [mbind result_bind];
    [|split; intros [out Hout]; discriminate].
  destruct (if smt =? CSR then slot tmpl "j"
            else if smt =? CSC then slot tmpl "i"
            else Err (RcppStop unknown_type_message)) as [rj|e];
    cbn [mbind result_bind]; [|split; intros [out Hout]; discriminate].
  destruct (slot tmpl "Dim") as [dim|e]; cbn [mbind result_bind];
    [|split; intros [out Hout]; discriminate].
  destruct (int_at dim 0) as [dim0|e]; cbn [mbind result_bind];
    [|split; intros [out Hout]; discriminate].
  destruct (int_at dim 1) as [dim1|e]; cbn [mbind result_bind];
    [|split; intros [out Hout]; discriminate].
  by rewrite !loop_success.
Qed.

(** ** Stored indices are read as unsigned *)




(** ** Where a failed call has failed *)

Lemma for_loop_Err_inv {S : Type} (body : Z → S → result S) lo n s e :
  for_loop body lo n s = Err e →
  ∃ k s', 0 ≤ k < Z.of_nat n ∧ body (lo + k) s' = Err e.
Proof.
  revert lo s. induction n as [|n IH]; intros lo s Hloop; [done|].
  cbn [for_loop] in Hloop. destruct (body lo s) as [s1|e1] eqn:Hbody.
  - cbn [mbind result_bind] in Hloop.
    destruct (IH _ _ Hloop) as (k & s' & Hk & Hk').
    exists (k + 1), s'. split; [lia|].
    by replace (lo + (k + 1)) with (lo + 1 + k) by lia.
  - injection Hloop as ->. exists 0, s. split; [lia|].
    by rewrite Z.add_0_r.
Qed.

Lemma array_store_Err (pp : Z) (v : R) (out : list R) e :
  array_store pp v out = Err e → e = UndefinedBehaviour.
Proof. unfold array_store. case_bool_decide; [done|]. by intros [= <-]. Qed.

Lemma log_store_Err nnz (pp : Z) (v : R) (log : list (nat * R)) e :
  log_store nnz pp v log = Err e → e = UndefinedBehaviour.
Proof. unfold log_store. case_bool_decide; [done|]. by intros [= <-]. Qed.

Section failure_facts.
Context {S : Type} (store : Z → R → S → result S).
Context (Hstore : ∀ pp v s e, store pp v s = Err e → e = UndefinedBehaviour).
Context (X Y : @mat R) (smt : Z) (rp rj : list Z).

(** The bounds check of the inner column fails on an index that names no
    column. *)
Lemma inner_body_Err_index xc pp s :
  inner_body Rzero Rplus Rmult store X Y smt rj xc pp s = Err ArmaIndexOutOfBounds →
  ∃ c, rj !! Z.to_nat pp = Some c ∧ n_cols (inner_factor smt X Y) ≤ to_uint32 c.
Proof.
  unfold inner_body, uint32_at. intros Hbody.
  destruct (int_at rj pp) as [c|e] eqn:Hread; cbn [mbind result_bind] in Hbody.
  - apply int_at_Ok_inv in Hread as [_ Hc]. exists c. split; [done|].
    change (if smt =? CSR then Y else X) with (inner_factor smt X Y) in Hbody.
    unfold col in Hbody.
    destruct (Z.leb_spec (n_cols (inner_factor smt X Y)) (to_uint32 c)); [done|].
    cbn [mbind result_bind] in Hbody. unfold as_scalar_mul in Hbody.
    destruct (decide _); cbn [mbind result_bind] in Hbody; [|done].
    by apply Hstore in Hbody.
  - unfold int_at in Hread. destruct (pp <? 0); [by injection Hread as <-|].
    destruct (rj !! Z.to_nat pp); [done|]. by injection Hread as <-.
Qed.

(** When the outer factor has column [i], a bounds check that fails in
    iteration [i] is that of an inner column. *)
Lemma outer_body_Err_index i s :
  0 ≤ i → i + 1 < 2 ^ 32 → i < n_cols (outer_factor smt X Y) →
  outer_body Rzero Rplus Rmult store X Y smt rp rj i s = Err ArmaIndexOutOfBounds →
  ∃ a b pp c,
    rp !! Z.to_nat i = Some a ∧ rp !! Z.to_nat (i + 1) = Some b ∧
    a ≤ pp < b ∧ rj !! Z.to_nat pp = Some c ∧
    n_cols (inner_factor smt X Y) ≤ to_uint32 c.
Proof.
  intros Hi Hi1 Hcol. unfold outer_body. intros Hbody.
  destruct (int_at rp i) as [a|e] eqn:Ha; cbn [mbind result_bind] in Hbody;
    last first.
  { unfold int_at in Ha. destruct (i <? 0); [by injection Ha as <-|].
    destruct (rp !! Z.to_nat i); [done|]. by injection Ha as <-. }
  apply int_at_Ok_inv in Ha as [_ Ha].
  rewrite (to_uint32_small (i + 1)) in Hbody by lia.
  destruct (int_at rp (i + 1)) as [b|e] eqn:Hb; cbn [mbind result_bind] in Hbody;
    last first.
  { unfold int_at in Hb. destruct (i + 1 <? 0); [by injection Hb as <-|].
    destruct (rp !! Z.to_nat (i + 1)); [done|]. by injection Hb as <-. }
  apply int_at_Ok_inv in Hb as [_ Hb].
  change (if smt =? CSR then X else Y) with (outer_factor smt X Y) in Hbody.
  rewrite (col_Ok _ _ Hcol) in Hbody. cbn [mbind result_bind] in Hbody.
  apply for_loop_Err_inv in Hbody as (k & s' & Hk & Hbody).
  apply inner_body_Err_index in Hbody as (c & Hc & Hge).
  exists a, b, (a + k), c. repeat (split; [done || lia|]). done.
Qed.
End failure_facts.

(** A loop that fails, in order or in parallel, fails with the error of
    one of its iterations. *)
Lemma loop_Err_inv exec X Y smt rp rj (N : nat) n_threads e :
  match exec with
  | NoOpenMP =>
      for_loop (outer_body Rzero Rplus Rmult array_store X Y smt rp rj)
               0 N (replicate (length rj) Rzero)
  | OpenMP GRAIN_SIZE schedule =>
      omp_parallel_for Rzero Rplus Rmult X Y smt rp rj N GRAIN_SIZE
                       n_threads schedule (replicate (length rj) Rzero)
  end = Err e →
  ∃ i, 0 ≤ i < Z.of_nat N ∧
    ((∃ s, outer_body Rzero Rplus Rmult array_store X Y smt rp rj i s = Err e) ∨
     (∃ s, outer_body Rzero Rplus Rmult (log_store (length rj)) X Y smt rp rj i s
           = Err e)).
Proof.
  destruct exec as [|GRAIN_SIZE schedule]; intros Hloop.
  - apply for_loop_Err_inv in Hloop as (k & s & Hk & Hbody).
    exists k. split; [lia|]. left. by exists s.
  - assert (∃ lo n, (n = 0%nat ∨ lo + n ≤ N)%nat ∧
              chunk_writes Rzero Rplus Rmult X Y smt rp rj lo n = Err e)
      as (lo & n & Hle & Hchunk).
    { unfold omp_parallel_for in Hloop.
      set (st0 := OmpState 0 (replicate (Z.to_nat n_threads) [])
                           (replicate (length rj) Rzero)) in Hloop.
      clearbody st0. revert st0 Hloop.
      induction schedule as [|t schedule IH]; intros st Hloop.
      - cbn [omp_run mbind result_bind] in Hloop. unfold omp_join in Hloop.
        destruct (chunk_writes Rzero Rplus Rmult X Y smt rp rj
                    (next_iteration st) (N - next_iteration st)) as [ws|e']
          eqn:Hchunk; [done|].
        injection Hloop as ->.
        exists (next_iteration st), (N - next_iteration st)%nat.
        split; [lia|done].
      - cbn [omp_run] in Hloop.
        destruct (omp_step Rzero Rplus Rmult X Y smt rp rj N GRAIN_SIZE t st)
          as [st'|e'] eqn:Hstep; cbn [mbind result_bind] in Hloop.
        + by apply (IH st').
        + injection Hloop as ->. unfold omp_step in Hstep.
          destruct (pending st !! t) as [[|w ws]|]; [|done..].
          destruct (chunk_writes Rzero Rplus Rmult X Y smt rp rj
                      (next_iteration st)
                      (GRAIN_SIZE `min` (N - next_iteration st))) as [ws|e']
            eqn:Hchunk; [done|].
          injection Hstep as ->.
          exists (next_iteration st),
                 (GRAIN_SIZE `min` (N - next_iteration st))%nat.
          split; [lia|done]. }
    unfold chunk_writes in Hchunk.
    apply for_loop_Err_inv in Hchunk as (k & s & Hk & Hbody).
    exists (Z.of_nat lo + k). split; [lia|]. right. by exists s.
Qed.

(** C10: every outer index [i] in [0, N) has its column of the outer
    factor ([X] for CSR, [Y] for CSC) extracted, whether or not its run of
    nonzeros is empty. A call that returns an array has found a column [i]
    in the outer factor for every such [i], so the factor needs at least
    [N] columns. When it has them the extraction is never out of bounds:
    a call that fails a bounds check has failed it on a stored index that
    names no column of the inner factor; and on inputs whose other
    accesses are in bounds the call returns an array exactly when the
    outer factor has a column for every outer index. *)
Theorem approximate_outer_columns exec tmpl X Y smt n_threads rp rj nr nc :
  smt = CSR ∨ smt = CSC →
  tmpl !! "p" = Some rp →
  tmpl !! (if smt =? CSR then "j" else "i") = Some rj →
  tmpl !! "Dim" = Some [nr; nc] →
  0 ≤ nr < 2 ^ 31 → 0 ≤ nc < 2 ^ 31 →
  (∀ out, approximate exec tmpl X Y smt n_threads = Ok out →
     ∀ i, 0 ≤ i < (if smt =? CSR then nr else nc) →
       i < n_cols (outer_factor smt X Y)) ∧
  ((if smt =? CSR then nr else nc) ≤ n_cols (outer_factor smt X Y) →
     approximate exec tmpl X Y smt n_threads = Err ArmaIndexOutOfBounds →
     ∃ i a b pp c,
       0 ≤ i < (if smt =? CSR then nr else nc) ∧
       rp !! Z.to_nat i = Some a ∧ rp !! Z.to_nat (i + 1) = Some b ∧
       a ≤ pp < b ∧ rj !! Z.to_nat pp = Some c ∧
       n_cols (inner_factor smt X Y) ≤ to_uint32 c) ∧
  (ptr_ok (Z.to_nat (if smt =? CSR then nr else nc)) (length rj) rp →
   Forall (λ c, to_uint32 c < n_cols (inner_factor smt X Y)) rj →
   n_rows X = n_rows Y →
   ((∃ out, approximate exec tmpl X Y smt n_threads = Ok out) ↔
    ∀ i, 0 ≤ i < (if smt =? CSR then nr else nc) →
      i < n_cols (outer_factor smt X Y))).
Proof.
  intros Hfmt Hp Hj HDim Hnr Hnc.
  assert (∀ out, approximate exec tmpl X Y smt n_threads = Ok out →
     ∀ i, 0 ≤ i < (if smt =? CSR then nr else nc) →
       i < n_cols (outer_factor smt X Y)) as Hneeds.
  { intros out Hout i Hi.
    destruct (approximate_Ok_chunk exec tmpl X Y smt n_threads rp rj nr nc out)
      as (ws & Hws); [done..|].
    destruct (chunk_writes_Ok_sub X Y smt rp rj _ ws (Z.to_nat i) 1 Hws)
      as (ws' & Hws'); [lia|].
    unfold chunk_writes in Hws'. cbn [for_loop] in Hws'.
    apply bind_Ok_inv in Hws' as (ws1 & Hbody & _).
    apply outer_body_Ok_col in Hbody. lia. }
  split; [exact Hneeds|]. split.
  - intros Hcols. rewrite (approximate_prologue exec tmpl X Y smt n_threads
                             rp rj nr nc) by done. cbv zeta.
    intros Hloop. apply loop_Err_inv in Hloop as (i & Hi & Hbody).
    assert (0 ≤ i < (if smt =? CSR then nr else nc)) as Hi'
      by (destruct (smt =? CSR); lia).
    assert (∃ a b pp c,
              rp !! Z.to_nat i = Some a ∧ rp !! Z.to_nat (i + 1) = Some b ∧
              a ≤ pp < b ∧ rj !! Z.to_nat pp = Some c ∧
              n_cols (inner_factor smt X Y) ≤ to_uint32 c)
      as (a & b & pp & c & Hrest).
    { destruct Hbody as [[s Hbody]|[s Hbody]].
      - eapply (outer_body_Err_index array_store array_store_Err);
          [| | |exact Hbody]; destruct (smt =? CSR); lia.
      - eapply (outer_body_Err_index (log_store (length rj))
                  (log_store_Err (length rj)));
          [| | |exact Hbody]; destruct (smt =? CSR); lia. }
    by exists i, a, b, pp, c.
  - intros Hptr Hinner Hrows. split.
    + intros (out & Hout). by apply (Hneeds out).
    + intros Hcols.
      destruct (decide ((if smt =? CSR then nr else nc) = 0)) as [Hzero|Hpos].
      * rewrite (approximate_prologue exec tmpl X Y smt n_threads rp rj nr nc)
          by done. cbv zeta. rewrite Hzero. apply loop_success. by exists [].
      * eexists. apply approximate_in_bounds. split; try done.
        specialize (Hcols ((if smt =? CSR then nr else nc) - 1)).
        destruct (smt =? CSR); lia.
Qed.

End facts.

(** * The thread count probe *)

Lemma mapM_increment (threads : nat) :
  mapM (λ n_private, int_add n_private 1) (replicate threads 0)
  = Ok (replicate threads 1).
Proof.
  induction threads as [|threads IH]; [done|].
  cbn [replicate mapM]. rewrite IH. done.
Qed.

Lemma omp_reduction_plus_ones (threads : nat) (order : list nat) (n : Z) :
  Forall (λ t, (t < threads)%nat) order →
  0 ≤ n → n + Z.of_nat (length order) < 2 ^ 31 →
  omp_reduction_plus n (replicate threads 1) order
  = Ok (n + Z.of_nat (length order)).
Proof.
  intros Horder. revert n.
  induction Horder as [|t order Ht Horder IH]; intros n Hn Hmax.
  - simpl. by rewrite Z.add_0_r.
  - cbn [omp_reduction_plus length] in *.
    rewrite lookup_total_replicate_2 by done.
    unfold int_add. rewrite bool_decide_eq_true_2 by lia.
    cbn [mbind result_bind]. rewrite IH by lia. f_equal. lia.
Qed.

(** X11: with OpenMP, [omp_thread_count] returns the number of threads of
    the team (below 2^31), whatever the order in which the runtime adds
    up the private counters; without OpenMP it returns 1. *)
Theorem omp_thread_count_team (threads : nat) (order : list nat) :
  order ≡ₚ seq 0 threads →
  Z.of_nat threads < 2 ^ 31 →
  omp_thread_count (Team threads order) = Ok (Z.of_nat threads) ∧
  omp_thread_count NoRegion = Ok 1.
Proof.
  intros Hperm Hmax. split; [|done].
  unfold omp_thread_count. rewrite mapM_increment. cbn [mbind result_bind].
  assert (length order = threads) as Hlen
    by (by rewrite Hperm, length_seq).
  rewrite omp_reduction_plus_ones; [by rewrite Hlen| |done|lia].
  rewrite Hperm. apply Forall_forall. intros t Ht.
  apply elem_of_seq in Ht. lia.
Qed.

(** * Concrete runs *)

Lemma ptr_check_ok (N nnz : nat) (rp : list Z) : ptr_check N nnz rp → ptr_ok N nnz rp.
Proof.
  intros (Hlen & Hfirst & Hmono & Hlast). split; [done| | |done].
  - intros a Ha. by rewrite <- (list_lookup_total_correct _ _ _ Ha).
  - intros k a b Ha Hb.
    pose proof (lookup_lt_Some _ _ _ Hb) as Hk. rewrite Hlen in Hk.
    rewrite <- (list_lookup_total_correct _ _ _ Ha),
            <- (list_lookup_total_correct _ _ _ Hb).
    apply (Forall_lookup_1 _ _ k k Hmono). apply lookup_seq. lia.
Qed.

Ltac check_ptr :=
  apply ptr_check_ok; unfold ptr_check; apply (bool_decide_unpack _); by vm_compute.
Ltac check_Forall := apply (bool_decide_unpack _); by vm_compute.

Lemma diag_csr_well_formed :
  well_formed CSR diag_csr X_12 Y_34 [0; 1; 2] [0; 1] 2 2.
Proof.
  split; [by left | by vm_compute.. | lia | lia | check_ptr | check_Forall
         | reflexivity | reflexivity | reflexivity].
Qed.

Lemma diag_csc_well_formed :
  well_formed CSC diag_csc X_12 Y_34 [0; 1; 2] [0; 1] 2 2.
Proof.
  split; [by right | by vm_compute.. | lia | lia | check_ptr | check_Forall
         | reflexivity | reflexivity | reflexivity].
Qed.

Lemma ragged_csr_well_formed :
  well_formed CSR ragged_csr X_ragged Y_ragged [0; 3; 3; 4] [0; 1; 2; 1] 3 3.
Proof.
  split; [by left | by vm_compute.. | lia | lia | check_ptr | check_Forall
         | reflexivity | reflexivity | reflexivity].
Qed.

Lemma empty_csr_well_formed :
  well_formed CSR empty_csr X_12 Y_34 [0; 0; 0] [] 2 2.
Proof.
  split; [by left | by vm_compute.. | lia | lia | check_ptr | check_Forall
         | reflexivity | reflexivity | reflexivity].
Qed.

Lemma minus_one_csr_in_bounds :
  in_bounds CSR minus_one_csr X_one Y_wide [0; 1] [-1] 1 1.
Proof.
  split; [by left | by vm_compute.. | lia | lia | check_ptr | by vm_compute
         | check_Forall | reflexivity].
Qed.

(** The scenarios of the specification. *)

Example diag_csr_run :
  cpp_make_sparse_approximation 0 Z.add Z.mul NoOpenMP diag_csr X_12 Y_34 CSR 1
  = Ok [3; 8].
Proof. by vm_compute. Qed.

Example diag_csc_run :
  cpp_make_sparse_approximation 0 Z.add Z.mul (OpenMP 1 [0; 1; 1; 0]%nat)
    diag_csc X_12 Y_34 CSC 2
  = Ok [3; 8].
Proof. by vm_compute. Qed.

Example ragged_csr_run :
  cpp_make_sparse_approximation 0 Z.add Z.mul (OpenMP 2 [1; 0; 1; 1; 0]%nat)
    ragged_csr X_ragged Y_ragged CSR 2
  = Ok [1; 1; 2; 5].
Proof. by vm_compute. Qed.

(** A stored -1 selects column 2^32 - 1 of the inner factor. *)
Example minus_one_csr_run :
  cpp_make_sparse_approximation 0 Z.add Z.mul NoOpenMP minus_one_csr X_one Y_wide CSR 1
  = Ok [inner_product 0 Z.add Z.mul [1; 1] (column Y_wide 4294967295)].
Proof. by vm_compute. Qed.

(** Rows 1 and 2 store nothing, yet their columns of [X] are asked for. *)
Example trailing_csr_run :
  cpp_make_sparse_approximation 0 Z.add Z.mul NoOpenMP trailing_csr X_one Y_ragged CSR 1
  = Err ArmaIndexOutOfBounds.
Proof. by vm_compute. Qed.

(** Without the monotone pointer array two iterations store to the same
    slot, and the schedule shows in the result: the hypothesis of schedule
    independence is needed. *)
Example overlapping_csr_race :
  cpp_make_sparse_approximation 0 Z.add Z.mul NoOpenMP
    overlapping_csr X_ragged Y_ragged CSR 1 = Ok [1; 3] ∧
  cpp_make_sparse_approximation 0 Z.add Z.mul (OpenMP 1 [0; 1; 1; 1; 0; 0]%nat)
    overlapping_csr X_ragged Y_ragged CSR 2 = Ok [1; 1].
Proof. by vm_compute. Qed.

(** * The theorems at concrete inputs *)

Lemma approximate_csr_slot_witness :
  well_formed CSR ragged_csr X_ragged Y_ragged [0; 3; 3; 4] [0; 1; 2; 1] 3 3 ∧
  ∃ out,
    cpp_make_sparse_approximation 0 Z.add Z.mul (OpenMP 2 [1; 0; 1; 1; 0]%nat)
      ragged_csr X_ragged Y_ragged CSR 2 = Ok out ∧
    ∀ i pp a b c,
      0 ≤ i < 3 →
      [0; 3; 3; 4] !! Z.to_nat i = Some a →
      [0; 3; 3; 4] !! Z.to_nat (i + 1) = Some b →
      a ≤ pp < b → [0; 1; 2; 1] !! Z.to_nat pp = Some c →
      out !! Z.to_nat pp =
      Some (inner_product 0 Z.add Z.mul (column X_ragged i) (column Y_ragged c)).
Proof.
  split; [exact ragged_csr_well_formed|].
  exact (approximate_csr_slot 0 Z.add Z.mul (OpenMP 2 [1; 0; 1; 1; 0]%nat)
           ragged_csr X_ragged Y_ragged [0; 3; 3; 4] [0; 1; 2; 1] 3 3 2
           ragged_csr_well_formed).
Defined.

Lemma approximate_csc_slot_witness :
  well_formed CSC diag_csc X_12 Y_34 [0; 1; 2] [0; 1] 2 2 ∧
  ∃ out,
    cpp_make_sparse_approximation 0 Z.add Z.mul NoOpenMP
      diag_csc X_12 Y_34 CSC 1 = Ok out ∧
    ∀ i pp a b c,
      0 ≤ i < 2 →
      [0; 1; 2] !! Z.to_nat i = Some a →
      [0; 1; 2] !! Z.to_nat (i + 1) = Some b →
      a ≤ pp < b → [0; 1] !! Z.to_nat pp = Some c →
      out !! Z.to_nat pp =
      Some (inner_product 0 Z.add Z.mul (column Y_34 i) (column X_12 c)).
Proof.
  split; [exact diag_csc_well_formed|].
  exact (approximate_csc_slot 0 Z.add Z.mul NoOpenMP
           diag_csc X_12 Y_34 [0; 1; 2] [0; 1] 2 2 1 diag_csc_well_formed).
Defined.

Lemma approximate_length_and_order_witness :
  well_formed CSR ragged_csr X_ragged Y_ragged [0; 3; 3; 4] [0; 1; 2; 1] 3 3 ∧
  ∃ out,
    cpp_make_sparse_approximation 0 Z.add Z.mul NoOpenMP
      ragged_csr X_ragged Y_ragged CSR 4 = Ok out ∧
    length out = length [0; 1; 2; 1] ∧
    ∀ i pp a b c,
      0 ≤ i < (if CSR =? CSR then 3 else 3) →
      [0; 3; 3; 4] !! Z.to_nat i = Some a →
      [0; 3; 3; 4] !! Z.to_nat (i + 1) = Some b →
      a ≤ pp < b → [0; 1; 2; 1] !! Z.to_nat pp = Some c →
      out !! Z.to_nat pp =
      Some (inner_product 0 Z.add Z.mul
              (column (outer_factor CSR X_ragged Y_ragged) i)
              (column (inner_factor CSR X_ragged Y_ragged) c)).
Proof.
  split; [exact ragged_csr_well_formed|].
  exact (approximate_length_and_order 0 Z.add Z.mul NoOpenMP
           ragged_csr X_ragged Y_ragged CSR [0; 3; 3; 4] [0; 1; 2; 1] 3 3 4
           ragged_csr_well_formed).
Defined.

Lemma approximate_invalid_format_witness :
  (3 ≠ CSR ∧ 3 ≠ CSC) ∧
  (∀ out, cpp_make_sparse_approximation 0 Z.add Z.mul NoOpenMP diag_csr X_12 Y_34 3 1
            ≠ Ok out) ∧
  (∀ rp, diag_csr !! "p" = Some rp →
     cpp_make_sparse_approximation 0 Z.add Z.mul NoOpenMP diag_csr X_12 Y_34 3 1
       = Err (RcppStop unknown_type_message)).
Proof.
  assert (3 ≠ CSR) as H3R by discriminate.
  assert (3 ≠ CSC) as H3C by discriminate.
  split; [done|].
  exact (approximate_invalid_format 0 Z.add Z.mul NoOpenMP diag_csr X_12 Y_34
           3 1 H3R H3C).
Defined.

Lemma approximate_thread_count_invariant_witness :
  well_formed CSR ragged_csr X_ragged Y_ragged [0; 3; 3; 4] [0; 1; 2; 1] 3 3 ∧
  ∃ out,
    cpp_make_sparse_approximation 0 Z.add Z.mul (OpenMP 1 [0; 0; 0; 0; 0; 0; 0]%nat)
      ragged_csr X_ragged Y_ragged CSR 1 = Ok out ∧
    cpp_make_sparse_approximation 0 Z.add Z.mul (OpenMP 1 [3; 1; 0; 2; 2; 1; 3; 0]%nat)
      ragged_csr X_ragged Y_ragged CSR 4 = Ok out.
Proof.
  split; [exact ragged_csr_well_formed|].
  exact (approximate_thread_count_invariant 0 Z.add Z.mul
           (OpenMP 1 [0; 0; 0; 0; 0; 0; 0]%nat) (OpenMP 1 [3; 1; 0; 2; 2; 1; 3; 0]%nat)
           ragged_csr X_ragged Y_ragged CSR [0; 3; 3; 4] [0; 1; 2; 1] 3 3 1 4
           ragged_csr_well_formed).
Defined.

Lemma approximate_csr_csc_transpose_witness :
  well_formed CSR ragged_csr X_ragged Y_ragged [0; 3; 3; 4] [0; 1; 2; 1] 3 3 ∧
  well_formed CSC (transpose_pattern ragged_csr) Y_ragged X_ragged
              [0; 3; 3; 4] [0; 1; 2; 1] 3 3 ∧
  entries CSC (transpose_pattern ragged_csr) = prod_swap <$> entries CSR ragged_csr ∧
  ∃ out,
    cpp_make_sparse_approximation 0 Z.add Z.mul NoOpenMP
      ragged_csr X_ragged Y_ragged CSR 1 = Ok out ∧
    cpp_make_sparse_approximation 0 Z.add Z.mul (OpenMP 2 [0; 1]%nat)
      (transpose_pattern ragged_csr) Y_ragged X_ragged CSC 2 = Ok out.
Proof.
  split; [exact ragged_csr_well_formed|].
  exact (approximate_csr_csc_transpose 0 Z.add Z.mul NoOpenMP (OpenMP 2 [0; 1]%nat)
           ragged_csr X_ragged Y_ragged [0; 3; 3; 4] [0; 1; 2; 1] 3 3 1 2
           ragged_csr_well_formed).
Defined.

(** C7 as stated fails: called with format 3, the message does not name
    the value 3. *)
Lemma invalid_format_message_omits_value :
  ¬ ∃ msg,
      cpp_make_sparse_approximation 0 Z.add Z.mul NoOpenMP diag_csr X_12 Y_34 3 1
        = Err (RcppStop msg) ∧
      names_value msg 3 = true ∧
      names_value msg CSC = true ∧
      names_value msg CSR = true.
Proof.
  intros (msg & Hmsg & Hnames & _).
  vm_compute in Hmsg. injection Hmsg as <-.
  vm_compute in Hnames. discriminate.
Qed.

Lemma approximate_invalid_format_message_witness :
  (diag_csr !! "p" = Some [0; 1; 2] ∧ 3 ≠ CSR ∧ 3 ≠ CSC) ∧
  cpp_make_sparse_approximation 0 Z.add Z.mul NoOpenMP diag_csr X_12 Y_34 3 1
    = Err (RcppStop unknown_type_message) ∧
  contains "CSC=1" unknown_type_message = true ∧
  contains "CSR=2" unknown_type_message = true ∧
  names_value unknown_type_message CSC = true ∧
  names_value unknown_type_message CSR = true.
Proof.
  assert (3 ≠ CSR) as H3R by discriminate.
  assert (3 ≠ CSC) as H3C by discriminate.
  assert (diag_csr !! "p" = Some [0; 1; 2]) as Hp by reflexivity.
  split; [done|].
  exact (approximate_invalid_format_message 0 Z.add Z.mul NoOpenMP diag_csr
           X_12 Y_34 3 1 [0; 1; 2] Hp H3R H3C).
Defined.

Lemma approximate_empty_pattern_witness :
  well_formed CSR empty_csr X_12 Y_34 [0; 0; 0] [] 2 2 ∧
  Forall (λ a, a = 0) [0; 0; 0] ∧
  cpp_make_sparse_approximation 0 Z.add Z.mul (OpenMP 1 [0; 1; 0]%nat)
    empty_csr X_12 Y_34 CSR 2 = Ok [].
Proof.
  split; [exact empty_csr_well_formed|].
  exact (approximate_empty_pattern 0 Z.add Z.mul (OpenMP 1 [0; 1; 0]%nat)
           empty_csr X_12 Y_34 CSR [0; 0; 0] 2 2 2 empty_csr_well_formed).
Defined.

(** * The further properties at concrete inputs *)

Lemma diag_csc_object_well_formed :
  well_formed CSC (integer_slots diag_csc_object) X_12 Y_34 [0; 1; 2] [0; 1] 2 2.
Proof. exact diag_csc_well_formed. Qed.

Lemma ragged_factors_agree_outer :
  agree_on (λ c, 0 ≤ c < to_uint32 (if CSR =? CSR then 3 else 3))
           (outer_factor CSR X_ragged Y_ragged) (outer_factor CSR X_ragged' Y_ragged').
Proof.
  split; [reflexivity|]. split; [reflexivity|].
  intros r c Hc Hr. change (to_uint32 (if CSR =? CSR then 3 else 3)) with 3 in Hc.
  change (n_rows (outer_factor CSR X_ragged Y_ragged)) with 2 in Hr.
  change (at_ (outer_factor CSR X_ragged' Y_ragged') r c)
    with (if bool_decide (0 ≤ r < 2 ∧ 0 ≤ c < 3) then at_ X_ragged r c else 99).
  by rewrite bool_decide_eq_true_2 by lia.
Qed.

Lemma ragged_factors_agree_inner :
  agree_on (λ c, ∃ k, k ∈ [0; 1; 2; 1] ∧ c = to_uint32 k)
           (inner_factor CSR X_ragged Y_ragged) (inner_factor CSR X_ragged' Y_ragged').
Proof.
  split; [reflexivity|]. split; [reflexivity|].
  intros r c (k & Hk & ->) Hr.
  change (n_rows (inner_factor CSR X_ragged Y_ragged)) with 2 in Hr.
  change (at_ (inner_factor CSR X_ragged' Y_ragged') r (to_uint32 k))
    with (if bool_decide (0 ≤ r < 2 ∧ 0 ≤ to_uint32 k < 3)
          then at_ Y_ragged r (to_uint32 k) else 77).
  assert (0 ≤ to_uint32 k < 3) as Hrange.
  { repeat (apply elem_of_cons in Hk as [->|Hk]; [by vm_compute|]).
    by apply elem_of_nil in Hk. }
  by rewrite bool_decide_eq_true_2 by lia.
Qed.

Lemma approximate_Ok_length_witness :
  (overlapping_csr !! "p" = Some [0; 2; 1; 2] ∧
   overlapping_csr !! (if CSR =? CSR then "j" else "i") = Some [0; 0] ∧
   overlapping_csr !! "Dim" = Some [3; 3] ∧
   cpp_make_sparse_approximation 0 Z.add Z.mul (OpenMP 1 [0; 1; 1; 1; 0; 0]%nat)
     overlapping_csr X_ragged Y_ragged CSR 2 = Ok [1; 1]) ∧
  (CSR = CSR ∨ CSR = CSC) ∧ length [1; 1] = length [0; 0].
Proof.
  assert (overlapping_csr !! "p" = Some [0; 2; 1; 2]) as Hp by reflexivity.
  assert (overlapping_csr !! (if CSR =? CSR then "j" else "i") = Some [0; 0])
    as Hj by reflexivity.
  assert (overlapping_csr !! "Dim" = Some [3; 3]) as HDim by reflexivity.
  assert (cpp_make_sparse_approximation 0 Z.add Z.mul
            (OpenMP 1 [0; 1; 1; 1; 0; 0]%nat)
            overlapping_csr X_ragged Y_ragged CSR 2 = Ok [1; 1]) as Hout
    by (by vm_compute).
  split; [done|].
  exact (approximate_Ok_length 0 Z.add Z.mul (OpenMP 1 [0; 1; 1; 1; 0; 0]%nat)
           overlapping_csr X_ragged Y_ragged CSR 2 [0; 2; 1; 2] [0; 0] 3 3 [1; 1]
           Hp Hj HDim Hout).
Defined.

Lemma approximate_unowned_slot_zero_witness :
  (shifted_csr !! "p" = Some [1; 3; 3; 4] ∧
   shifted_csr !! (if CSR =? CSR then "j" else "i") = Some [0; 1; 2; 1] ∧
   shifted_csr !! "Dim" = Some [3; 3] ∧
   cpp_make_sparse_approximation 0 Z.add Z.mul NoOpenMP
     shifted_csr X_ragged Y_ragged CSR 1 = Ok [0; 1; 2; 5]) ∧
  ∀ pp, 0 ≤ pp < Z.of_nat (length [0; 1; 2; 1]) →
    (∀ i a b, 0 ≤ i < to_uint32 (if CSR =? CSR then 3 else 3) →
       [1; 3; 3; 4] !! Z.to_nat i = Some a →
       [1; 3; 3; 4] !! Z.to_nat (i + 1) = Some b →
       ¬ (a ≤ pp < b)) →
    [0; 1; 2; 5] !! Z.to_nat pp = Some 0.
Proof.
  assert (shifted_csr !! "p" = Some [1; 3; 3; 4]) as Hp by reflexivity.
  assert (shifted_csr !! (if CSR =? CSR then "j" else "i") = Some [0; 1; 2; 1])
    as Hj by reflexivity.
  assert (shifted_csr !! "Dim" = Some [3; 3]) as HDim by reflexivity.
  assert (cpp_make_sparse_approximation 0 Z.add Z.mul NoOpenMP
            shifted_csr X_ragged Y_ragged CSR 1 = Ok [0; 1; 2; 5]) as Hout
    by (by vm_compute).
  split; [done|].
  exact (approximate_unowned_slot_zero 0 Z.add Z.mul NoOpenMP
           shifted_csr X_ragged Y_ragged CSR 1 [1; 3; 3; 4] [0; 1; 2; 1] 3 3
           [0; 1; 2; 5] Hp Hj HDim Hout).
Defined.

Lemma approximate_format_object_mismatch_witness :
  ((CSR = CSR ∨ CSR = CSC) ∧
   diag_csc !! "p" = Some [0; 1; 2] ∧
   diag_csc !! (if CSR =? CSR then "j" else "i") = None) ∧
  cpp_make_sparse_approximation 0 Z.add Z.mul NoOpenMP diag_csc X_12 Y_34 CSR 1
  = Err (NoSuchSlot (if CSR =? CSR then "j" else "i")).
Proof.
  assert (CSR = CSR ∨ CSR = CSC) as Hfmt by (by left).
  assert (diag_csc !! "p" = Some [0; 1; 2]) as Hp by reflexivity.
  assert (diag_csc !! (if CSR =? CSR then "j" else "i") = None) as Hj
    by reflexivity.
  split; [done|].
  exact (approximate_format_object_mismatch 0 Z.add Z.mul NoOpenMP
           diag_csc X_12 Y_34 CSR 1 [0; 1; 2] Hfmt Hp Hj).
Defined.

Lemma approximate_ignores_other_slots_witness :
  ("x" ≠ "p" ∧ "x" ≠ "j" ∧ "x" ≠ "i" ∧ "x" ≠ "Dim") ∧
  cpp_make_sparse_approximation 0 Z.add Z.mul NoOpenMP
    (<["x" := [7; 8; 9; 6]]> ragged_csr) X_ragged Y_ragged CSR 1
  = cpp_make_sparse_approximation 0 Z.add Z.mul NoOpenMP
      ragged_csr X_ragged Y_ragged CSR 1.
Proof.
  assert ("x" ≠ "p") as Hp by discriminate.
  assert ("x" ≠ "j") as Hj by discriminate.
  assert ("x" ≠ "i") as Hi by discriminate.
  assert ("x" ≠ "Dim") as HDim by discriminate.
  split; [done|].
  exact (approximate_ignores_other_slots 0 Z.add Z.mul NoOpenMP
           ragged_csr X_ragged Y_ragged CSR 1 "x" [7; 8; 9; 6] Hp Hj Hi HDim).
Defined.

Lemma approximate_depends_on_used_columns_witness :
  (ragged_csr !! "p" = Some [0; 3; 3; 4] ∧
   ragged_csr !! (if CSR =? CSR then "j" else "i") = Some [0; 1; 2; 1] ∧
   ragged_csr !! "Dim" = Some [3; 3] ∧
   agree_on (λ c, 0 ≤ c < to_uint32 (if CSR =? CSR then 3 else 3))
            (outer_factor CSR X_ragged Y_ragged)
            (outer_factor CSR X_ragged' Y_ragged') ∧
   agree_on (λ c, ∃ k, k ∈ [0; 1; 2; 1] ∧ c = to_uint32 k)
            (inner_factor CSR X_ragged Y_ragged)
            (inner_factor CSR X_ragged' Y_ragged')) ∧
  cpp_make_sparse_approximation 0 Z.add Z.mul (OpenMP 2 [1; 0; 1]%nat)
    ragged_csr X_ragged Y_ragged CSR 2
  = cpp_make_sparse_approximation 0 Z.add Z.mul (OpenMP 2 [1; 0; 1]%nat)
      ragged_csr X_ragged' Y_ragged' CSR 2.
Proof.
  assert (ragged_csr !! "p" = Some [0; 3; 3; 4]) as Hp by reflexivity.
  assert (ragged_csr !! (if CSR =? CSR then "j" else "i") = Some [0; 1; 2; 1])
    as Hj by reflexivity.
  assert (ragged_csr !! "Dim" = Some [3; 3]) as HDim by reflexivity.
  split; [by auto using ragged_factors_agree_outer, ragged_factors_agree_inner|].
  exact (approximate_depends_on_used_columns 0 Z.add Z.mul
           (OpenMP 2 [1; 0; 1]%nat) ragged_csr X_ragged Y_ragged
           X_ragged' Y_ragged' CSR 2 [0; 3; 3; 4] [0; 1; 2; 1] 3 3
           Hp Hj HDim ragged_factors_agree_outer ragged_factors_agree_inner).
Defined.

Lemma extract_mapped_csr_well_formed_witness :
  (well_formed CSR (integer_slots diag_csr_object) X_12 Y_34 [0; 1; 2] [0; 1] 2 2 ∧
   numeric_slots diag_csr_object !! "x" = Some [10; 20] ∧
   Z.of_nat (length [0; 1]) < 2 ^ 31) ∧
  extract_mapped_csr diag_csr_object
  = Ok (Mapped 2 2 (Z.of_nat (length [10; 20])) [0; 1] [0; 1; 2] [10; 20]).
Proof.
  assert (numeric_slots diag_csr_object !! "x" = Some [10; 20]) as Hx
    by reflexivity.
  assert (Z.of_nat (length [0; 1]) < 2 ^ 31) as Hnnz by (simpl; lia).
  split; [by auto using diag_csr_well_formed|].
  exact (extract_mapped_csr_well_formed diag_csr_object X_12 Y_34
           [0; 1; 2] [0; 1] 2 2 [10; 20] diag_csr_well_formed Hx Hnnz).
Defined.

Lemma extract_mapped_csc_well_formed_witness :
  (well_formed CSC (integer_slots diag_csc_object) X_12 Y_34 [0; 1; 2] [0; 1] 2 2 ∧
   numeric_slots diag_csc_object !! "x" = Some [10; 20] ∧
   Z.of_nat (length [0; 1]) < 2 ^ 31) ∧
  extract_mapped_csc diag_csc_object
  = Ok (Mapped 2 2 (Z.of_nat (length [10; 20])) [0; 1] [0; 1; 2] [10; 20]).
Proof.
  assert (numeric_slots diag_csc_object !! "x" = Some [10; 20]) as Hx
    by reflexivity.
  assert (Z.of_nat (length [0; 1]) < 2 ^ 31) as Hnnz by (simpl; lia).
  split; [by auto using diag_csc_object_well_formed|].
  exact (extract_mapped_csc_well_formed diag_csc_object X_12 Y_34
           [0; 1; 2] [0; 1] 2 2 [10; 20] diag_csc_object_well_formed Hx Hnnz).
Defined.

Lemma extract_mapped_transpose_witness :
  (integer_slots ragged_csr_object !! "p" = Some [0; 3; 3; 4] ∧
   integer_slots ragged_csr_object !! "j" = Some [0; 1; 2; 1] ∧
   integer_slots ragged_csr_object !! "Dim" = Some [3; 3] ∧
   numeric_slots ragged_csr_object !! "x" = Some [7; 8; 9; 6]) ∧
  ∃ v, extract_mapped_csr ragged_csr_object = Ok v ∧
       extract_mapped_csc (transpose_object ragged_csr_object)
       = Ok (transpose_view v).
Proof.
  assert (integer_slots ragged_csr_object !! "p" = Some [0; 3; 3; 4]) as Hp
    by reflexivity.
  assert (integer_slots ragged_csr_object !! "j" = Some [0; 1; 2; 1]) as Hj
    by reflexivity.
  assert (integer_slots ragged_csr_object !! "Dim" = Some [3; 3]) as HDim
    by reflexivity.
  assert (numeric_slots ragged_csr_object !! "x" = Some [7; 8; 9; 6]) as Hx
    by reflexivity.
  split; [done|].
  exact (extract_mapped_transpose ragged_csr_object
           [0; 3; 3; 4] [0; 1; 2; 1] 3 3 [7; 8; 9; 6] Hp Hj HDim Hx).
Defined.

Lemma approximate_aligned_with_view_witness :
  (in_bounds CSR (integer_slots minus_one_csr_object) X_one Y_wide [0; 1] [-1] 1 1 ∧
   Z.of_nat (length [-1]) < 2 ^ 31 ∧
   (if CSR =? CSR then extract_mapped_csr minus_one_csr_object
    else extract_mapped_csc minus_one_csr_object)
   = Ok (Mapped 1 1 1 [4294967295] [0; 1] [5])) ∧
  ∃ out,
    cpp_make_sparse_approximation 0 Z.add Z.mul NoOpenMP
      (integer_slots minus_one_csr_object) X_one Y_wide CSR 1 = Ok out ∧
    length out = length (view_inner_index (Mapped 1 1 1 [4294967295] [0; 1] [5])) ∧
    ∀ i pp,
      0 ≤ i < (if CSR =? CSR
               then view_nrows (Mapped 1 1 1 [4294967295] [0; 1] [5])
               else view_ncols (Mapped 1 1 1 [4294967295] [0; 1] [5])) →
      view_outer_ptr (Mapped 1 1 1 [4294967295] [0; 1] [5]) !!! Z.to_nat i ≤ pp
      < view_outer_ptr (Mapped 1 1 1 [4294967295] [0; 1] [5]) !!! Z.to_nat (i + 1) →
      out !! Z.to_nat pp =
      Some (inner_product 0 Z.add Z.mul
              (column (outer_factor CSR X_one Y_wide) i)
              (column (inner_factor CSR X_one Y_wide)
                 (view_inner_index (Mapped 1 1 1 [4294967295] [0; 1] [5])
                    !!! Z.to_nat pp))).
Proof.
  assert (Z.of_nat (length [-1]) < 2 ^ 31) as Hnnz by (simpl; lia).
  assert ((if CSR =? CSR then extract_mapped_csr minus_one_csr_object
           else extract_mapped_csc minus_one_csr_object)
          = Ok (Mapped 1 1 1 [4294967295] [0; 1] [5])) as Hview
    by (by vm_compute).
  split; [by auto using minus_one_csr_in_bounds|].
  exact (approximate_aligned_with_view 0 Z.add Z.mul NoOpenMP
           minus_one_csr_object X_one Y_wide CSR 1 [0; 1] [-1] 1 1
           (Mapped 1 1 1 [4294967295] [0; 1] [5])
           minus_one_csr_in_bounds Hnnz Hview).
Defined.

Lemma omp_thread_count_team_witness :
  ([2; 0; 3; 1]%nat ≡ₚ seq 0 4 ∧ Z.of_nat 4 < 2 ^ 31) ∧
  omp_thread_count (Team 4 [2; 0; 3; 1]%nat) = Ok (Z.of_nat 4) ∧
  omp_thread_count NoRegion = Ok 1.
Proof.
  assert ([2; 0; 3; 1]%nat ≡ₚ seq 0 4) as Hperm.
  { apply (bool_decide_unpack _). by vm_compute. }
  assert (Z.of_nat 4 < 2 ^ 31) as Hmax by (simpl; lia).
  split; [done|].
  exact (omp_thread_count_team 4 [2; 0; 3; 1]%nat Hperm Hmax).
Defined.

(** * Index and column bounds at concrete inputs *)




Lemma approximate_outer_columns_witness :
  ((CSR = CSR ∨ CSR = CSC) ∧
   trailing_csr !! "p" = Some [0; 1; 1; 1] ∧
   trailing_csr !! (if CSR =? CSR then "j" else "i") = Some [0] ∧
   trailing_csr !! "Dim" = Some [3; 3] ∧
   0 ≤ 3 < 2 ^ 31) ∧
  (∀ out,
     cpp_make_sparse_approximation 0 Z.add Z.mul NoOpenMP
       trailing_csr X_ragged Y_ragged CSR 1 = Ok out →
     ∀ i, 0 ≤ i < (if CSR =? CSR then 3 else 3) →
       i < n_cols (outer_factor CSR X_ragged Y_ragged)) ∧
  ((if CSR =? CSR then 3 else 3) ≤ n_cols (outer_factor CSR X_ragged Y_ragged) →
     cpp_make_sparse_approximation 0 Z.add Z.mul NoOpenMP
       trailing_csr X_ragged Y_ragged CSR 1 = Err ArmaIndexOutOfBounds →
     ∃ i a b pp c,
       0 ≤ i < (if CSR =? CSR then 3 else 3) ∧
       [0; 1; 1; 1] !! Z.to_nat i = Some a ∧
       [0; 1; 1; 1] !! Z.to_nat (i + 1) = Some b ∧
       a ≤ pp < b ∧ [0] !! Z.to_nat pp = Some c ∧
       n_cols (inner_factor CSR X_ragged Y_ragged) ≤ to_uint32 c) ∧
  (ptr_ok (Z.to_nat (if CSR =? CSR then 3 else 3)) (length [0]) [0; 1; 1; 1] →
   Forall (λ c, to_uint32 c < n_cols (inner_factor CSR X_ragged Y_ragged)) [0] →
   n_rows X_ragged = n_rows Y_ragged →
   ((∃ out,
       cpp_make_sparse_approximation 0 Z.add Z.mul NoOpenMP
         trailing_csr X_ragged Y_ragged CSR 1 = Ok out) ↔
    ∀ i, 0 ≤ i < (if CSR =? CSR then 3 else 3) →
      i < n_cols (outer_factor CSR X_ragged Y_ragged))).
Proof.
  assert (CSR = CSR ∨ CSR = CSC) as Hfmt by (by left).
  assert (trailing_csr !! "p" = Some [0; 1; 1; 1]) as Hp by reflexivity.
  assert (trailing_csr !! (if CSR =? CSR then "j" else "i") = Some [0]) as Hj
    by reflexivity.
  assert (trailing_csr !! "Dim" = Some [3; 3]) as HDim by reflexivity.
  assert (0 ≤ 3 < 2 ^ 31) as Hd by lia.
  split; [done|].
  exact (approximate_outer_columns 0 Z.add Z.mul NoOpenMP trailing_csr
           X_ragged Y_ragged CSR 1 [0; 1; 1; 1] [0] 3 3 Hfmt Hp Hj HDim Hd Hd).
Defined.

(** With trailing empty rows the hypotheses of the equivalence hold, and
    the one-column factor of [trailing_csr_run] is refused while the
    three-column factor is accepted. *)
Example trailing_csr_accepted :
  ptr_ok 3 (length [0]) [0; 1; 1; 1] ∧
  cpp_make_sparse_approximation 0 Z.add Z.mul NoOpenMP
    trailing_csr X_ragged Y_ragged CSR 1 = Ok [1].
Proof. split; [check_ptr | by vm_compute]. Qed.
